(** * Nyalock-bot: the in-browser retrieval engine of docs/nyalock/nyalock.js

    A shallow embedding of the lexical retrieval core of the chat client:
    the tokenizer, the TF-IDF index builder, the scorer/ranker, the corpus
    loader with its ordered fallback, the paragraph chunker and the
    submit handler.

    Modelling conventions.
    - A JavaScript string is a Rocq [string]; a character is a code point
      in U+0000..U+00FF (Latin-1), on which the Unicode tables used by the
      program (white space, general categories P and S, lower-casing) are
      written out in full.  The tokenizer is also given on every text, as
      a sequence of arbitrary code points (module [Unicode]), and the one
      on strings is shown to be its restriction.
    - A JavaScript [Map] is an association list in insertion order, which
      is the order [keys()] and [entries()] iterate in.
    - Counts are natural numbers.  Scores are JavaScript numbers; they are
      modelled by the real numbers, [Math.log] by [ln].
    - A thrown exception is the [None] of an option, or the left summand
      of a sum when the thrown value matters.  *)

From Stdlib Require Import List String Ascii Bool Arith Lia ZArith.
From Stdlib Require Import Reals Lra Permutation Sorted DecimalString.
From Stdlib Require DecimalNat.
Import ListNotations.

Local Open Scope string_scope.
Local Open Scope list_scope.
Local Open Scope nat_scope.

(* ------------------------------------------------------------------ *)
(** ** JavaScript built-ins used by the program *)

(** Code point of a character. *)
Definition code (c : ascii) : nat := nat_of_ascii c.

Definition in_range (lo hi : nat) (c : ascii) : bool :=
  (lo <=? code c) && (code c <=? hi).

(** The class [\s] of ECMAScript regular expressions (WhiteSpace and
    LineTerminator), restricted to U+0000..U+00FF: TAB, LF, VT, FF, CR,
    SPACE and NO-BREAK SPACE. *)
Definition isWhiteSpace (c : ascii) : bool :=
  in_range 9 13 c || (code c =? 32) || (code c =? 160).

(** The class [[\p{P}\p{S}]] (general categories Punctuation and Symbol),
    restricted to U+0000..U+00FF. *)
Definition isPunctOrSymbol (c : ascii) : bool :=
  in_range 33 47 c || in_range 58 64 c || in_range 91 96 c
  || in_range 123 126 c
  || in_range 161 169 c || in_range 171 172 c || in_range 174 177 c
  || (code c =? 180) || in_range 182 184 c || (code c =? 187)
  || (code c =? 191) || (code c =? 215) || (code c =? 247).

(** Simple lower-case mapping on U+0000..U+00FF. *)
Definition lower_char (c : ascii) : ascii :=
  if in_range 65 90 c || in_range 192 214 c || in_range 216 222 c
  then ascii_of_nat (code c + 32)
  else c.

Fixpoint string_map (f : ascii -> ascii) (s : string) : string :=
  match s with
  | EmptyString => EmptyString
  | String c s' => String (f c) (string_map f s')
  end.

(** [String.prototype.toLowerCase]. *)
Definition toLowerCase (s : string) : string := string_map lower_char s.

(** [s.replace(/[\p{P}\p{S}]/gu, ' ')]. *)
Definition replacePunct (s : string) : string :=
  string_map (fun c => if isPunctOrSymbol c then " "%char else c) s.

(** Truthiness of a string: [Boolean(s)] is false exactly for the empty
    string. *)
Definition truthy (s : string) : bool :=
  match s with
  | EmptyString => false
  | String _ _ => true
  end.

(** Appending one character at the end of the segment being read. *)
Definition snoc (s : string) (c : ascii) : string :=
  (s ++ String c EmptyString)%string.

(** [s.split(/\s+/)].  The separator matches every maximal run of white
    space; the pieces between the runs are returned, the first and the last
    one included when they are empty.  [insep] tells that the scan is inside
    a separator run, [cur] is the piece read so far. *)
Fixpoint split_ws_from (insep : bool) (cur : string) (s : string)
  : list string :=
  match s with
  | EmptyString => [cur]
  | String c s' =>
      if isWhiteSpace c
      then if insep then split_ws_from true EmptyString s'
           else cur :: split_ws_from true EmptyString s'
      else split_ws_from false (snoc cur c) s'
  end.

Definition split_ws (s : string) : list string :=
  split_ws_from false EmptyString s.

(** The line feed, the only character [\n] matches. *)
Definition LF : ascii := "010"%char.

Definition isLF (c : ascii) : bool := code c =? 10.

(** Where the scan of [split(/\n\n+/)] stands: reading a piece, one line
    feed seen after it (not yet a separator), or inside a separator. *)
Inductive nl_state : Type := Reading | OneNewline | InSeparator.

(** [s.split(/\n\n+/)]: the separator matches every maximal run of two or
    more line feeds; a single line feed stays in its piece. *)
Fixpoint split_nl_from (st : nl_state) (cur : string) (s : string)
  : list string :=
  match s with
  | EmptyString =>
      match st with
      | OneNewline => [snoc cur LF]
      | _ => [cur]
      end
  | String c s' =>
      if isLF c
      then match st with
           | Reading => split_nl_from OneNewline cur s'
           | OneNewline => cur :: split_nl_from InSeparator EmptyString s'
           | InSeparator => split_nl_from InSeparator EmptyString s'
           end
      else match st with
           | OneNewline => split_nl_from Reading (snoc (snoc cur LF) c) s'
           | _ => split_nl_from Reading (snoc cur c) s'
           end
  end.

Definition split_nl (s : string) : list string :=
  split_nl_from Reading EmptyString s.

(** [s.slice(0, n)] on a string, for a constant [n >= 0]. *)
Definition str_slice0 (s : string) (n : nat) : string := substring 0 n s.

(** [s.trim()]: white space and line terminators off both ends. *)
Fixpoint trimStart (s : string) : string :=
  match s with
  | EmptyString => EmptyString
  | String c s' => if isWhiteSpace c then trimStart s' else s
  end.

Fixpoint trimEnd (s : string) : string :=
  match s with
  | EmptyString => EmptyString
  | String c s' =>
      let r := trimEnd s' in
      if isWhiteSpace c && negb (truthy r) then EmptyString else String c r
  end.

Definition trim (s : string) : string := trimEnd (trimStart s).

(** [s.startsWith(p)] and [s.includes(sub)]. *)
Definition startsWith (s p : string) : bool := prefix p s.

Fixpoint includes (s sub : string) : bool :=
  prefix sub s
  || match s with
     | EmptyString => false
     | String _ s' => includes s' sub
     end.

(** [x || d] for a string that may be [undefined]: the default is taken
    for [undefined] and for the empty string. *)
Definition or_str (o : option string) (d : string) : string :=
  match o with
  | Some s => if truthy s then s else d
  | None => d
  end.

(** Decimal digits of a number in a template literal. *)
Definition decimal (n : nat) : string :=
  NilEmpty.string_of_uint (Nat.to_uint n).

(* ------------------------------------------------------------------ *)
(** ** Tokenizer *)

(** [tokenize(text)], nyalock.js lines 30-36. *)
Definition tokenize (text : string) : list string :=
  filter truthy (split_ws (replacePunct (toLowerCase text))).

(** *** The tokenizer on every text

    The definitions above read a text in the Latin-1 range.  The three
    built-ins of the tokenizer work on every string: [toLowerCase] and,
    under the [u] flag, [replace] go through the string by code point, and
    every character of the class [\s] is a code point of its own.  In the
    module below a text is the sequence of its code points, any code
    points (an unpaired surrogate is one of them).  The class [\s] is
    written out in full.  Within U+0000..U+00FF lower-casing and the
    categories P and S are the tables above; beyond that range they are
    the two parameters [lowerCase], which is given the whole string since
    lower-casing may depend on the neighbours of a character and may
    change the length, and [punctOrSymbol]. *)
Module Unicode.

(** A code point within U+0000..U+00FF, and the Latin-1 tables read at
    such a code point. *)
Definition latin1 (c : N) : bool := (c <? 256)%N.

Definition latin1_space (c : N) : bool := isWhiteSpace (ascii_of_N c).

Definition latin1_punct (c : N) : bool := isPunctOrSymbol (ascii_of_N c).

Definition latin1_lower (c : N) : N := N_of_ascii (lower_char (ascii_of_N c)).

(** The replacement character of line 33, U+0020. *)
Definition SPACE : N := 32%N.

(** The class [\s]: WhiteSpace (TAB, VT, FF, U+FEFF and the category Zs:
    U+0020, U+00A0, U+1680, U+2000..U+200A, U+202F, U+205F, U+3000) and
    LineTerminator (LF, CR, U+2028, U+2029). *)
Definition isWhiteSpace (c : N) : bool :=
  if latin1 c then latin1_space c
  else (c =? 5760)%N
       || ((8192 <=? c)%N && (c <=? 8202)%N)
       || (c =? 8232)%N || (c =? 8233)%N
       || (c =? 8239)%N || (c =? 8287)%N
       || (c =? 12288)%N || (c =? 65279)%N.

Section Tables.

(** [String.prototype.toLowerCase] on a string that holds a code point
    beyond U+00FF, and the class [[\p{P}\p{S}]] beyond U+00FF. *)
Variable lowerCase : list N -> list N.
Variable punctOrSymbol : N -> bool.

(** [String.prototype.toLowerCase]: no lower-casing rule that looks at
    the neighbours or changes the length applies to a string within
    U+0000..U+00FF. *)
Definition toLowerCase (s : list N) : list N :=
  if forallb latin1 s then map latin1_lower s else lowerCase s.

(** The class [[\p{P}\p{S}]]. *)
Definition isPunctOrSymbol (c : N) : bool :=
  if latin1 c then latin1_punct c else punctOrSymbol c.

(** [s.replace(/[\p{P}\p{S}]/gu, ' ')]. *)
Definition replacePunct (s : list N) : list N :=
  map (fun c => if isPunctOrSymbol c then SPACE else c) s.

(** [Boolean(s)]. *)
Definition truthy (s : list N) : bool :=
  match s with
  | [] => false
  | _ :: _ => true
  end.

(** [s.split(/\s+/)], as [split_ws_from] above. *)
Fixpoint split_ws_from (insep : bool) (cur : list N) (s : list N)
  : list (list N) :=
  match s with
  | [] => [cur]
  | c :: s' =>
      if isWhiteSpace c
      then if insep then split_ws_from true [] s'
           else cur :: split_ws_from true [] s'
      else split_ws_from false (cur ++ [c]) s'
  end.

Definition split_ws (s : list N) : list (list N) := split_ws_from false [] s.

(** [tokenize(text)], nyalock.js lines 30-36. *)
Definition tokenize (text : list N) : list (list N) :=
  filter truthy (split_ws (replacePunct (toLowerCase text))).

End Tables.


(** A run of white space, a word (non-empty, free of white space), and a
    text that is empty or starts with white space. *)
Definition blank (s : list N) : Prop :=
  Forall (fun c => isWhiteSpace c = true) s.

Definition word (t : list N) : Prop :=
  t <> [] /\ Forall (fun c => isWhiteSpace c = false) t.

Definition starts_blank (s : list N) : Prop :=
  match s with
  | [] => True
  | c :: _ => isWhiteSpace c = true
  end.

(** [tokens_of s ts]: the words [ts] are, in order, the maximal runs of
    code points of [s] that are not white space. *)
Inductive tokens_of : list N -> list (list N) -> Prop :=
| tokens_none s : blank s -> tokens_of s []
| tokens_next w t rest ts :
    blank w -> word t -> starts_blank rest -> tokens_of rest ts ->
    tokens_of (w ++ t ++ rest) (t :: ts).



End Unicode.

(* ------------------------------------------------------------------ *)
(** ** [Map] objects *)

(** A [Map] with string keys: the entries in insertion order, each key at
    most once. *)
Definition JsMap (V : Type) : Type := list (string * V).

(** [m.get(k)]; [None] is [undefined]. *)
Fixpoint map_get {V : Type} (m : JsMap V) (k : string) : option V :=
  match m with
  | [] => None
  | (k', v) :: m' => if String.eqb k' k then Some v else map_get m' k
  end.

(** [m.set(k, v)]: an existing key keeps its place, a new key goes last. *)
Fixpoint map_set {V : Type} (m : JsMap V) (k : string) (v : V) : JsMap V :=
  match m with
  | [] => [(k, v)]
  | (k', v') :: m' =>
      if String.eqb k' k then (k', v) :: m' else (k', v') :: map_set m' k v
  end.

(** [m.keys()] and [m.entries()], in iteration order. *)
Definition map_keys {V : Type} (m : JsMap V) : list string := map fst m.
Definition map_entries {V : Type} (m : JsMap V) : list (string * V) := m.

(** [x || 0] for a count read from a map. *)
Definition or0 (o : option nat) : nat :=
  match o with
  | Some n => n
  | None => 0
  end.

(* ------------------------------------------------------------------ *)
(** ** Data model *)

(** The objects pushed on [items] by [loadData]. *)
Record Chunk : Type := mkChunk {
  id : string;
  text : string;
  title : string;
  date : string;
  url : string
}.

(** The object returned by [buildIndex]: [{ items, df, tf, N }]. *)
Record Index : Type := mkIndex {
  items : list Chunk;
  df : JsMap nat;
  tf : list (JsMap nat);
  N : nat
}.

(* ------------------------------------------------------------------ *)
(** ** Index builder *)

(** The loop [for (const t of tokens) counts.set(t, (counts.get(t) || 0) + 1)]
    (lines 42-44, and line 57 for the query). *)
Definition count_tokens (tokens : list string) (counts : JsMap nat)
  : JsMap nat :=
  fold_left (fun counts t => map_set counts t (or0 (map_get counts t) + 1))
            tokens counts.

(** The loop [for (const term of counts.keys()) df.set(term, ...+ 1)]
    (lines 45-47) on the shared table [df]. *)
Definition bump_df (df : JsMap nat) (terms : list string) : JsMap nat :=
  fold_left (fun df term => map_set df term (or0 (map_get df term) + 1))
            terms df.

(** One call of the callback of [items.map] (lines 40-49): the state is the
    shared [df] and the array of tables returned so far. *)
Definition index_step (st : JsMap nat * list (JsMap nat)) (item : Chunk)
  : JsMap nat * list (JsMap nat) :=
  let counts := count_tokens (tokenize (text item)) [] in
  (bump_df (fst st) (map_keys counts), snd st ++ [counts]).

(** [buildIndex(items)], lines 38-52. *)
Definition buildIndex (items : list Chunk) : Index :=
  let st := fold_left index_step items ([], []) in
  {| items := items; df := fst st; tf := snd st; N := List.length items |}.

(** Chunk with a given text, for examples on the index alone. *)
Definition chunk_of_text (t : string) : Chunk :=
  {| id := ""; text := t; title := ""; date := ""; url := "" |}.

(* ------------------------------------------------------------------ *)
(** ** Arrays: [sort] and [slice] *)

(** Insertion of [x] in front of a sorted array: [x] goes past the elements
    [y] that the comparator puts strictly before it ([cmp y x < 0]) and
    stops in front of the first one it does not. *)
Fixpoint insert_by {A : Type} (cmp : A -> A -> R) (x : A) (l : list A)
  : list A :=
  match l with
  | [] => [x]
  | y :: l' =>
      if Rlt_dec (cmp y x) 0 then y :: insert_by cmp x l' else x :: y :: l'
  end.

(** [a.sort(cmp)].  ECMAScript requires the sort to be stable; for a
    consistent comparator every stable sort gives the same array, and
    insertion sort is the one written here. *)
Definition Array_sort {A : Type} (cmp : A -> A -> R) (l : list A) : list A :=
  fold_right (insert_by cmp) [] l.

(** [a.slice(0, e)] for an integer [e]: a negative [e] counts from the end,
    and the end index is clamped to the array. *)
Definition slice0 {A : Type} (l : list A) (e : Z) : list A :=
  let len := Z.of_nat (List.length l) in
  let final := if (e <? 0)%Z then Z.max (len + e) 0 else Z.min e len in
  firstn (Z.to_nat final) l.

(** Running a list of computations that may throw: the first exception
    aborts the whole. *)
Fixpoint sequence {A : Type} (l : list (option A)) : option (list A) :=
  match l with
  | [] => Some []
  | None :: _ => None
  | Some a :: l' =>
      match sequence l' with
      | None => None
      | Some r => Some (a :: r)
      end
  end.

(* ------------------------------------------------------------------ *)
(** ** Scorer *)

(** The objects returned by [score]: [{ ...index.items[i], score: s }].
    Spreading [undefined] adds no field, which is [None] here. *)
Record ScoredChunk : Type := mkScored {
  sc_chunk : option Chunk;
  sc_score : R
}.

(** One turn of the loop over [qCounts.entries()] (lines 61-67) for chunk
    [i]; [None] is the TypeError of [index.tf[i].get] on a missing table. *)
Definition score_step (index : Index) (i : nat) (acc : option R)
  (entry : string * nat) : option R :=
  match acc with
  | None => None
  | Some s =>
      let '(term, qtf) := entry in
      let df := or0 (map_get (df index) term) in
      if df =? 0 then Some s
      else
        match nth_error (tf index) i with
        | None => None
        | Some tfi =>
            let idf := ln ((INR (N index) + 1) / (INR df + 0.5)) in
            let tf := or0 (map_get tfi term) in
            Some (s + (INR qtf * (1 + ln (1 + INR tf))) * idf)%R
        end
  end.

(** The callback of [index.items.map] (lines 59-69): the score [s] of
    chunk [i]. *)
Definition chunk_score (qCounts : JsMap nat) (index : Index) (i : nat)
  : option R :=
  fold_left (score_step index i) (map_entries qCounts) (Some 0%R).

(** The array [scores] of the objects [{ i, s }], before sorting. *)
Definition all_scores (qCounts : JsMap nat) (index : Index)
  : option (list (nat * R)) :=
  sequence (map (fun i => option_map (pair i) (chunk_score qCounts index i))
                (seq 0 (List.length (items index)))).

(** The comparator [(a, b) => b.s - a.s] of line 70. *)
Definition by_score_desc (a b : nat * R) : R := (snd b - snd a)%R.

(** The array [scores] after [sort] and [slice(0, topK)]. *)
Definition ranking (query : string) (index : Index) (topK : Z)
  : option (list (nat * R)) :=
  let qCounts := count_tokens (tokenize query) [] in
  match all_scores qCounts index with
  | None => None
  | Some scores => Some (slice0 (Array_sort by_score_desc scores) topK)
  end.

(** The callback [({ i, s }) => ({ ...index.items[i], score: s })] of
    line 71. *)
Definition attach (index : Index) (e : nat * R) : ScoredChunk :=
  {| sc_chunk := nth_error (items index) (fst e); sc_score := snd e |}.

(** [score(query, index, topK)], lines 54-72.  The default value 8 of
    [topK] is the value the only call passes. *)
Definition score (query : string) (index : Index) (topK : Z)
  : option (list ScoredChunk) :=
  option_map (map (attach index)) (ranking query index topK).

(* ------------------------------------------------------------------ *)
(** ** Corpus loader *)

(** The values thrown in the program. *)
Inductive JsError : Type :=
| Rejected (reason : string)
    (** rejection of [fetch], [res.text()] or [res.json()] *)
| HttpError (status : nat) (statusText : string)
    (** [new Error(`${res.status} ${res.statusText}`)], line 79 *)
| HtmlInsteadOfJson
    (** [new Error('Received HTML instead of JSON')], line 83 *)
| JsonSyntaxError (reason : string)
    (** thrown by [JSON.parse] *)
| AllFetchFailed
    (** [new Error('All fetch attempts failed')], line 90 *)
| RelayError (status : nat).
    (** [new Error(`Relay error: ${res.status}`)], line 141 *)

(** What the loader reads of a [Response]. *)
Record Response : Type := mkResponse {
  status : nat;
  statusText : string;
  content_type : option string;   (** [res.headers.get('content-type')] *)
  body : JsError + string         (** what [res.text()] settles to *)
}.

(** [res.ok]: the status is in the range 200-299. *)
Definition ok (res : Response) : bool :=
  (200 <=? status res) && (status res <=? 299).

(** What [fetch(p)] settles to. *)
Inductive FetchOutcome : Type :=
| FetchRejected (e : JsError)
| FetchResponse (res : Response).

(** The corpus file: two optional arrays of records, every field of a
    record optional. *)
Record Metadata : Type := mkMetadata {
  m_title : option string;
  record_date : option string;
  estimated_date : option string;
  m_url : option string
}.

Record SourceRecord : Type := mkRecord {
  metadata : option Metadata;
  transcription : option string
}.

Record Data : Type := mkData {
  transcriptions : option (list SourceRecord);
  videos : option (list SourceRecord)
}.

(** White space of the JSON grammar, and the characters a JSON value can
    start with: an object, an array, a string, a number, [true], [false]
    or [null]. *)
Definition json_ws (c : ascii) : bool :=
  (code c =? 32) || (code c =? 9) || (code c =? 10) || (code c =? 13).

Definition json_start (c : ascii) : bool :=
  (code c =? 123) || (code c =? 91) || (code c =? 34) || (code c =? 45)
  || in_range 48 57 c
  || (code c =? 116) || (code c =? 102) || (code c =? 110).

Fixpoint skip_json_ws (s : string) : string :=
  match s with
  | EmptyString => EmptyString
  | String c s' => if json_ws c then skip_json_ws s' else s
  end.

Section Loader.

(** The JSON grammar proper is a parameter: [json_value text] is the value
    of a text that starts like a JSON value, or the syntax error. *)
Variable json_value : string -> JsError + Data.

(** [JSON.parse(text)]: a text that does not start, after JSON white space,
    with the first character of a value is a syntax error. *)
Definition JSON_parse (text : string) : JsError + Data :=
  match skip_json_ws text with
  | EmptyString => inl (JsonSyntaxError "Unexpected end of JSON input")
  | String c _ =>
      if json_start c then json_value text
      else inl (JsonSyntaxError "Unexpected token")
  end.

(** The network at the time of the call: what [fetch] settles to for each
    location. *)
Variable fetch : string -> FetchOutcome.

(** The body of the [try] of lines 77-85 for one candidate: the value
    returned, or the exception caught at line 86. *)
Definition try_candidate (p : string) : JsError + Data :=
  match fetch p with
  | FetchRejected e => inl e
  | FetchResponse res =>
      if negb (ok res) then inl (HttpError (status res) (statusText res))
      else
        let ct := or_str (content_type res) "" in
        match body res with
        | inl e => inl e
        | inr text =>
            if negb (includes ct "application/json")
               && startsWith (trim text) "<"
            then inl HtmlInsteadOfJson
            else JSON_parse text
        end
  end.

(** The loop of lines 76-90, [lastErr] being the last exception caught. *)
Fixpoint fallback_loop (lastErr : option JsError) (paths : list string)
  : JsError + Data :=
  match paths with
  | [] =>
      inl (match lastErr with
           | Some e => e
           | None => AllFetchFailed
           end)
  | p :: paths' =>
      match try_candidate p with
      | inr data => inr data
      | inl e => fallback_loop (Some e) paths'
      end
  end.

(** [fetchJsonWithFallback(paths)], lines 74-91. *)
Definition fetchJsonWithFallback (paths : list string) : JsError + Data :=
  fallback_loop None paths.

End Loader.

(* ------------------------------------------------------------------ *)
(** ** Corpus assembly *)

(** [parts.forEach((p, idx) => items.push({...}))], lines 110-112. *)
Fixpoint forEach_push (title date url : string) (parts : list string)
  (idx : nat) (items : list Chunk) : list Chunk :=
  match parts with
  | [] => items
  | p :: parts' =>
      forEach_push title date url parts' (S idx)
        (items ++ [ {| id := (url ++ "#p" ++ decimal idx)%string;
                       text := str_slice0 p 2000;
                       title := title; date := date; url := url |} ])
  end.

(** [t?.metadata?.f]. *)
Definition meta_field (f : Metadata -> option string) (t : SourceRecord)
  : option string :=
  match metadata t with
  | Some m => f m
  | None => None
  end.

(** The date of a record of [transcriptions] (line 105) and of a record of
    [videos] (line 118). *)
Definition transcription_date (t : SourceRecord) : string :=
  or_str (meta_field record_date t) (or_str (meta_field estimated_date t) "").

Definition video_date (v : SourceRecord) : string :=
  or_str (meta_field estimated_date v) "".

(** The body of the loops of lines 103-113 and 116-126 for one record. *)
Definition add_record (date_of : SourceRecord -> string)
  (items : list Chunk) (t : SourceRecord) : list Chunk :=
  let title := or_str (meta_field m_title t) "Untitled" in
  let date := date_of t in
  let url := or_str (meta_field m_url t) "" in
  let text := or_str (transcription t) "" in
  if negb (truthy text) then items
  else
    let parts := filter truthy (split_nl text) in
    forEach_push title date url parts 0 items.

(** Lines 101-127 of [loadData]: the array [items] built from the parsed
    file. *)
Definition assemble (data : Data) : list Chunk :=
  let items := [] in
  let items :=
    match transcriptions data with
    | Some ts => fold_left (add_record transcription_date) ts items
    | None => items
    end in
  match videos data with
  | Some vs => fold_left (add_record video_date) vs items
  | None => items
  end.

(* ------------------------------------------------------------------ *)
(** ** Page state and handlers *)

Inductive Role : Type := user | bot.

(** The texts shown by [addMsg], by the place that produces them. *)
Inductive MsgBody : Type :=
| Said (q : string)                     (** line 150 *)
| DataLoaded (chunks : nat)             (** line 130 *)
| LoadFailed (e : JsError)              (** line 132 *)
| IndexNotBuilt                         (** line 154 *)
| RelayAnswer (answer : string)         (** line 163 *)
| RelayEmpty                            (** line 163, empty answer *)
| RelayFailed (e : JsError)             (** line 165 *)
| Template (top : list ScoredChunk).    (** line 170 *)

Record Msg : Type := mkMsg {
  role : Role;
  msg_body : MsgBody;
  msg_meta : option string
}.

(** The state of the page: the variables [docs] and [index], the messages
    appended to [chat], the relay requests in flight (with the reference
    label computed for each), and, as a ghost field, the calls of [score]
    made so far with their arguments. *)
Record State : Type := mkState {
  docs : list Chunk;
  index : option Index;
  chat : list Msg;
  in_flight : list string;
  score_calls : list (string * Index * Z)
}.

Definition initial : State :=
  {| docs := []; index := None; chat := []; in_flight := [];
     score_calls := [] |}.

(** [addMsg(role, text, meta)], lines 16-28. *)
Definition addMsg (r : Role) (b : MsgBody) (meta : option string)
  (st : State) : State :=
  {| docs := docs st; index := index st;
     chat := chat st ++ [ {| role := r; msg_body := b; msg_meta := meta |} ];
     in_flight := in_flight st; score_calls := score_calls st |}.

(** The candidate locations of line 96-99. *)
Definition candidates : list string :=
  ["./real_transcriptions.json"; "../real_transcriptions.json"].

(** [loadData()], lines 93-134, from the point where the fetches have
    settled. *)
Definition loadData (json_value : string -> JsError + Data)
  (fetch : string -> FetchOutcome) (st : State) : State :=
  match fetchJsonWithFallback json_value fetch candidates with
  | inr data =>
      let items := assemble data in
      addMsg bot (DataLoaded (List.length items)) None
        {| docs := items; index := Some (buildIndex items);
           chat := chat st; in_flight := in_flight st;
           score_calls := score_calls st |}
  | inl e => addMsg bot (LoadFailed e) None st
  end.

(** A field of a scored chunk in a template literal. *)
Definition field (f : Chunk -> string) (t : ScoredChunk) : string :=
  match sc_chunk t with
  | Some c => f c
  | None => "undefined"
  end.

Fixpoint join (sep : string) (l : list string) : string :=
  match l with
  | [] => EmptyString
  | [s] => s
  | s :: l' => (s ++ sep ++ join sep l')%string
  end.

(** The reference label of line 158. *)
Definition refText (top : list ScoredChunk) : string :=
  join " / "
    (map (fun t => (field title t ++ " (" ++ field date t ++ ")")%string)
         (slice0 top 3)).

(** The submit handler, lines 146-172, up to the call of the relay:
    [value] is [queryInput.value], [useLlm] is [useLlm.checked] and
    [endpoint] is [relayEndpoint.value]. *)
Definition submit (value : string) (useLlm : bool) (endpoint : string)
  (st : State) : State :=
  let q := trim value in
  if negb (truthy q) then st
  else
    let st := addMsg user (Said q) None st in
    match index st with
    | None => addMsg bot IndexNotBuilt None st
    | Some idx =>
        let st :=
          {| docs := docs st; index := index st; chat := chat st;
             in_flight := in_flight st;
             score_calls := score_calls st ++ [(q, idx, 8%Z)] |} in
        match score q idx 8 with
        | None => st
        | Some top =>
            let ref := refText top in
            if useLlm then
              if negb (truthy (trim endpoint))
              then addMsg bot RelayEmpty (Some ref) st
              else
                {| docs := docs st; index := index st; chat := chat st;
                   in_flight := in_flight st ++ [ref];
                   score_calls := score_calls st |}
            else addMsg bot (Template top) (Some ref) st
        end
    end.

(** What the relay answers: the [text] and [answer] fields of the reply
    and its serialisation. *)
Record RelayData : Type := mkRelayData {
  r_text : option string;
  r_answer : option string;
  r_json : string
}.

Inductive RelayReply : Type :=
| RelayRejected (e : JsError)
| RelayResponse (status : nat) (data : JsError + RelayData).

(** Lines 140-143 of [callRelay], once the endpoint is known to be set. *)
Definition callRelay (reply : RelayReply) : JsError + string :=
  match reply with
  | RelayRejected e => inl e
  | RelayResponse st data =>
      if negb ((200 <=? st) && (st <=? 299)) then inl (RelayError st)
      else
        match data with
        | inl e => inl e
        | inr d => inr (or_str (r_text d) (or_str (r_answer d) (r_json d)))
        end
  end.

(** Lines 162-166: the [k]-th request in flight settles. *)
Definition relay_settled (k : nat) (reply : RelayReply) (st : State)
  : State :=
  match nth_error (in_flight st) k with
  | None => st
  | Some ref =>
      let st :=
        {| docs := docs st; index := index st; chat := chat st;
           in_flight := firstn k (in_flight st) ++ skipn (S k) (in_flight st);
           score_calls := score_calls st |} in
      match callRelay reply with
      | inr answer =>
          addMsg bot (if truthy answer then RelayAnswer answer else RelayEmpty)
                 (Some ref) st
      | inl e => addMsg bot (RelayFailed e) (Some ref) st
      end
  end.

(** The events of a session and the state after a sequence of them. *)
Inductive Event : Type :=
| LoadSettled (fetch : string -> FetchOutcome)
| Submitted (value : string) (useLlm : bool) (endpoint : string)
| RelaySettled (k : nat) (reply : RelayReply).

Definition handle (json_value : string -> JsError + Data) (st : State)
  (ev : Event) : State :=
  match ev with
  | LoadSettled fetch => loadData json_value fetch st
  | Submitted value useLlm endpoint => submit value useLlm endpoint st
  | RelaySettled k reply => relay_settled k reply st
  end.

Definition run (json_value : string -> JsError + Data) (evs : list Event)
  : State :=
  fold_left (handle json_value) evs initial.

(* ------------------------------------------------------------------ *)
(** ** Notions used to state the properties *)

(** Whether a table counts a term at least once. *)
Definition occurs_in (t : string) (counts : JsMap nat) : bool :=
  0 <? or0 (map_get counts t).

(** Term frequency of term [t] in chunk [i] of an index, [0] when the term
    or the chunk is missing. *)
Definition termFrequency (idx : Index) (i : nat) (t : string) : nat :=
  match nth_error (tf idx) i with
  | Some counts => or0 (map_get counts t)
  | None => 0
  end.

Definition documentFrequency (idx : Index) (t : string) : nat :=
  or0 (map_get (df idx) t).

(** The chunks of an index whose table counts [t] at least once. *)
Definition chunks_with (idx : Index) (t : string) : list nat :=
  filter (fun i => 0 <? termFrequency idx i t)
         (seq 0 (List.length (tf idx))).
(** The corpus of the examples of the index and of the scorer. *)
Definition cat_dog : list Chunk := map chunk_of_text ["cat dog"; "dog dog"].

(** Sum of a list of numbers, and of the values of [f] over a list. *)
Definition Rsum (l : list R) : R := fold_right Rplus 0%R l.

Definition sum_over {A : Type} (l : list A) (f : A -> R) : R :=
  Rsum (map f l).

(** The inverse document frequency of line 64. *)
Definition idf (idx : Index) (t : string) : R :=
  ln ((INR (N idx) + 1) / (INR (documentFrequency idx t) + 0.5)).

(** What a query term [t] counted [qtf] times adds to the score of chunk
    [i] (lines 62-66): nothing when its document frequency is zero. *)
Definition contribution (idx : Index) (i : nat) (qtf : nat) (t : string)
  : R :=
  if documentFrequency idx t =? 0 then 0%R
  else (INR qtf * (1 + ln (1 + INR (termFrequency idx i t))) * idf idx t)%R.

(** The sum of the contributions of the distinct terms of a query, each
    with its number of occurrences in the query. *)
Definition tfidf (idx : Index) (i : nat) (qTokens : list string) : R :=
  sum_over (nodup string_dec qTokens)
           (fun t => contribution idx i (count_occ string_dec qTokens t) t).

(** The contribution as the specification words it: a term of document
    frequency zero contributes nothing, and so does a term absent from the
    chunk. *)
Definition spec_contribution (idx : Index) (i : nat) (qtf : nat)
  (t : string) : R :=
  if documentFrequency idx t =? 0 then 0%R
  else if termFrequency idx i t =? 0 then 0%R
  else (INR qtf * (1 + ln (1 + INR (termFrequency idx i t))) * idf idx t)%R.

Definition spec_tfidf (idx : Index) (i : nat) (qTokens : list string) : R :=
  sum_over (nodup string_dec qTokens)
           (fun t => spec_contribution idx i (count_occ string_dec qTokens t) t).

(** Chunk [a] ranks before chunk [b]: a higher score, or the same score
    and an earlier place in the corpus. *)
Definition ranks_before (a b : nat * R) : Prop :=
  (snd a > snd b)%R \/ (snd a = snd b /\ fst a < fst b).

(** An index with one table per chunk, as [buildIndex] makes them. *)
Definition well_formed (idx : Index) : Prop :=
  List.length (tf idx) = List.length (items idx).


Fixpoint string_forall (P : ascii -> bool) (s : string) : bool :=
  match s with
  | EmptyString => true
  | String c s' => P c && string_forall P s'
  end.

(** A run of white space, a word (non-empty, free of white space), and a
    string that is empty or starts with white space. *)
Definition blank (s : string) : Prop := string_forall isWhiteSpace s = true.

Definition word (t : string) : Prop :=
  t <> EmptyString
  /\ string_forall (fun c => negb (isWhiteSpace c)) t = true.

Definition starts_blank (s : string) : Prop :=
  match s with
  | EmptyString => True
  | String c _ => isWhiteSpace c = true
  end.

(** [tokens_of s ts]: the words [ts] are, in order, the maximal runs of
    characters of [s] that are not white space. *)
Inductive tokens_of : string -> list string -> Prop :=
| tokens_none s : blank s -> tokens_of s []
| tokens_next w t rest ts :
    blank w -> word t -> starts_blank rest -> tokens_of rest ts ->
    tokens_of (w ++ t ++ rest)%string (t :: ts).


(** The paragraphs kept of a text (line 109), and the chunk made of the
    paragraph at index [idx] (line 111). *)
Definition paragraphs (text : string) : list string :=
  filter truthy (split_nl text).

Definition paragraph_chunk (title date url : string) (idx : nat)
  (p : string) : Chunk :=
  {| id := (url ++ "#p" ++ decimal idx)%string;
     text := str_slice0 p 2000;
     title := title; date := date; url := url |}.

(** The chunks of one record, in the order of its paragraphs. *)
Definition record_chunks (date_of : SourceRecord -> string)
  (t : SourceRecord) : list Chunk :=
  let parts := paragraphs (or_str (transcription t) "") in
  map (fun kp => paragraph_chunk (or_str (meta_field m_title t) "Untitled")
                   (date_of t) (or_str (meta_field m_url t) "")
                   (fst kp) (snd kp))
      (combine (seq 0 (List.length parts)) parts).

(** The records of an optional array, none when it is missing. *)
Definition records (o : option (list SourceRecord)) : list SourceRecord :=
  match o with
  | Some l => l
  | None => []
  end.

(** A paragraph as an author writes it: not empty, no line feed at either
    end, no two line feeds in a row.  [after_lf] tells that the character
    before the string is a line feed (or that the string starts the
    paragraph). *)
Fixpoint no_double_lf (after_lf : bool) (s : string) : bool :=
  match s with
  | EmptyString => negb after_lf
  | String c s' =>
      if isLF c then negb after_lf && no_double_lf true s'
      else no_double_lf false s'
  end.

Definition is_paragraph (p : string) : bool := no_double_lf true p.

(** Two line feeds, the separator between paragraphs. *)
Definition blank_line : string := String LF (String LF EmptyString).

(** A run of [n] line feeds. *)
Fixpoint lf_run (n : nat) : string :=
  match n with
  | 0 => EmptyString
  | S n' => String LF (lf_run n')
  end.

(** [paragraphs_of s ps]: the text [s] is made of the paragraphs [ps], in
    order, each separated from the next by a run of two or more line
    feeds. *)
Inductive paragraphs_of : string -> list string -> Prop :=
| paragraphs_last p : is_paragraph p = true -> paragraphs_of p [p]
| paragraphs_more p n rest ps :
    is_paragraph p = true -> paragraphs_of rest ps ->
    paragraphs_of (p ++ lf_run (2 + n) ++ rest)%string (p :: ps).

(** A candidate location fails: its [try] block throws. *)
Definition fails (json_value : string -> JsError + Data)
  (fetch : string -> FetchOutcome) (p : string) : Prop :=
  exists e, try_candidate json_value fetch p = inl e.

(** A toy grammar and a toy network for the examples of the loader: every
    text that starts like a value parses to the same file, location [A]
    answers 404 and location [B] answers a JSON body. *)
Definition one_record : Data :=
  {| transcriptions :=
       Some [ {| metadata := None; transcription := Some "cat dog" |} ];
     videos := None |}.

Definition toy_json_value (text : string) : JsError + Data := inr one_record.

Definition toy_fetch (p : string) : FetchOutcome :=
  if String.eqb p "B"
  then FetchResponse {| status := 200; statusText := "OK";
                        content_type := Some "application/json";
                        body := inr "{}" |}
  else FetchResponse {| status := 404; statusText := "Not Found";
                        content_type := Some "text/html";
                        body := inr "<html></html>" |}.

(** The index is either not built or the one [buildIndex] makes of the
    corpus held in [docs], itself assembled from a parsed file. *)
Definition index_built (st : State) : Prop :=
  index st = None
  \/ exists data,
       docs st = assemble data /\ index st = Some (buildIndex (docs st)).

(** Every recorded call of [score] was on such an index, with [topK = 8]. *)
Definition calls_on_built_index (st : State) : Prop :=
  Forall (fun call : string * Index * Z =>
            (exists data, snd (fst call) = buildIndex (assemble data))
            /\ snd call = 8%Z)
         (score_calls st).

(** No load has settled among the events. *)
Definition not_loaded (ev : Event) : Prop :=
  match ev with
  | LoadSettled _ => False
  | _ => True
  end.

(* ------------------------------------------------------------------ *)
(** ** Notions used to state further properties *)

(** The sum of the counts held by a table. *)
Definition table_total (m : JsMap nat) : nat := list_sum (map snd m).

(** Every count held by a table is at least one. *)
Definition positive_counts (m : JsMap nat) : Prop :=
  Forall (fun e : string * nat => 1 <= snd e) m.

(** The url of a record as [loadData] reads it (lines 106 and 119). *)
Definition record_url (t : SourceRecord) : string :=
  or_str (meta_field m_url t) "".

(** All the records of a file, in the order [loadData] visits them. *)
Definition all_records (data : Data) : list SourceRecord :=
  records (transcriptions data) ++ records (videos data).

Definition is_digit (c : ascii) : bool := in_range 48 57 c.

(** A text without two line feeds in a row.  [after_lf] tells that the
    character before the string is a line feed. *)
Fixpoint no_blank_line (after_lf : bool) (s : string) : bool :=
  match s with
  | EmptyString => true
  | String c s' =>
      if isLF c then negb after_lf && no_blank_line true s'
      else no_blank_line false s'
  end.

(** A record that gives at least one chunk. *)
Definition has_chunks (t : SourceRecord) : bool :=
  match paragraphs (or_str (transcription t) "") with
  | [] => false
  | _ :: _ => true
  end.

(** The identifiers of the chunks of a record (line 111). *)
Definition record_ids (t : SourceRecord) : list string :=
  map (fun k => (record_url t ++ "#p" ++ decimal k)%string)
      (seq 0 (List.length (paragraphs (or_str (transcription t) "")))).

(** An event that is not a load that succeeds: a submit, a relay that
    settles, or a load whose every candidate fails. *)
Definition load_fails (json_value : string -> JsError + Data) (ev : Event)
  : Prop :=
  match ev with
  | LoadSettled fetch =>
      exists e, fetchJsonWithFallback json_value fetch candidates = inl e
  | _ => True
  end.


(** A network on which every location answers the same JSON body. *)
Definition json_everywhere (p : string) : FetchOutcome :=
  FetchResponse {| status := 200; statusText := "OK";
                   content_type := Some "application/json";
                   body := inr "{}" |}.

(* ================================================================== *)
(** * Properties *)

(* ------------------------------------------------------------------ *)
(** ** Maps *)

Section MapFacts.

Context {V : Type}.
Implicit Types (m : JsMap V) (k : string) (v : V).

Lemma map_get_set_same m k v : map_get (map_set m k v) k = Some v.
Proof.
  induction m as [|[k' v'] m IH]; simpl.
  - now rewrite String.eqb_refl.
  - destruct (String.eqb k' k) eqn:E; simpl; rewrite E; auto.
Qed.

Lemma map_get_set_other m k k' v :
  k <> k' -> map_get (map_set m k v) k' = map_get m k'.
Proof.
  intros Hne.
  induction m as [|[k0 v0] m IH]; simpl.
  - apply String.eqb_neq in Hne. now rewrite Hne.
  - destruct (String.eqb k0 k) eqn:E; simpl.
    + apply String.eqb_eq in E. subst k0.
      apply String.eqb_neq in Hne. now rewrite Hne.
    + now rewrite IH.
Qed.

Lemma map_keys_set m k v :
  map_keys (map_set m k v)
  = if in_dec string_dec k (map_keys m) then map_keys m
    else map_keys m ++ [k].
Proof.
  unfold map_keys.
  induction m as [|[k0 v0] m IH]; simpl.
  - reflexivity.
  - destruct (String.eqb k0 k) eqn:E; simpl.
    + apply String.eqb_eq in E. subst k0.
      destruct (string_dec k k); [reflexivity | contradiction].
    + apply String.eqb_neq in E. rewrite IH.
      destruct (string_dec k0 k); [contradiction|].
      now destruct (in_dec string_dec k (map fst m)).
Qed.


Lemma map_keys_set_NoDup m k v :
  NoDup (map_keys m) -> NoDup (map_keys (map_set m k v)).
Proof.
  intros Hnd. rewrite map_keys_set.
  destruct (in_dec string_dec k (map_keys m)) as [Hin|Hnin]; auto.
  rewrite <- (rev_involutive (map_keys m ++ [k])). apply NoDup_rev.
  rewrite rev_unit. constructor.
  - now rewrite <- in_rev.
  - now apply NoDup_rev.
Qed.

Lemma map_keys_set_In m k v k' :
  In k' (map_keys (map_set m k v)) <-> k' = k \/ In k' (map_keys m).
Proof.
  rewrite map_keys_set.
  destruct (in_dec string_dec k (map_keys m)) as [Hin|Hnin].
  - split; [tauto | intros [->|H]; auto].
  - rewrite in_app_iff; simpl. intuition congruence.
Qed.

End MapFacts.

(** Counting in a table: every token adds one to its own entry. *)
Lemma count_tokens_get tokens : forall counts t,
  or0 (map_get (count_tokens tokens counts) t)
  = or0 (map_get counts t) + count_occ string_dec tokens t.
Proof.
  unfold count_tokens.
  induction tokens as [|a tokens IH]; intros counts t; simpl.
  - lia.
  - rewrite IH. destruct (string_dec a t) as [->|Hne].
    + rewrite map_get_set_same. simpl. lia.
    + now rewrite map_get_set_other.
Qed.

Lemma count_tokens_NoDup tokens : forall counts,
  NoDup (map_keys counts) -> NoDup (map_keys (count_tokens tokens counts)).
Proof.
  unfold count_tokens.
  induction tokens as [|a tokens IH]; intros counts Hnd; simpl; auto.
  apply IH. now apply map_keys_set_NoDup.
Qed.

Lemma count_tokens_keys tokens : forall counts t,
  In t (map_keys (count_tokens tokens counts))
  <-> In t tokens \/ In t (map_keys counts).
Proof.
  unfold count_tokens.
  induction tokens as [|a tokens IH]; intros counts t; simpl.
  - tauto.
  - rewrite IH, map_keys_set_In. intuition congruence.
Qed.

(** The table of a chunk: the keys are the tokens, without repetition, and
    the count of a term is its number of occurrences. *)
Lemma counts_get tokens t :
  or0 (map_get (count_tokens tokens []) t) = count_occ string_dec tokens t.
Proof. now rewrite count_tokens_get. Qed.

Lemma counts_keys tokens t :
  In t (map_keys (count_tokens tokens [])) <-> In t tokens.
Proof. rewrite count_tokens_keys. simpl. tauto. Qed.

Lemma counts_NoDup tokens : NoDup (map_keys (count_tokens tokens [])).
Proof. apply count_tokens_NoDup. constructor. Qed.

Lemma bump_df_get terms : forall df t,
  or0 (map_get (bump_df df terms) t)
  = or0 (map_get df t) + count_occ string_dec terms t.
Proof.
  unfold bump_df.
  induction terms as [|a terms IH]; intros df t; simpl.
  - lia.
  - rewrite IH. destruct (string_dec a t) as [->|Hne].
    + rewrite map_get_set_same. simpl. lia.
    + now rewrite map_get_set_other.
Qed.

Lemma count_occ_keys tokens t :
  count_occ string_dec (map_keys (count_tokens tokens [])) t
  = if occurs_in t (count_tokens tokens []) then 1 else 0.
Proof.
  unfold occurs_in. rewrite counts_get.
  pose proof (counts_NoDup tokens) as Hnd.
  pose proof (counts_keys tokens t) as Hk.
  destruct (Nat.ltb_spec 0 (count_occ string_dec tokens t)) as [Hpos|Hz].
  - apply count_occ_In in Hpos. apply Hk in Hpos.
    apply NoDup_count_occ' with (decA := string_dec) in Hpos; auto.
  - apply count_occ_not_In. intros Hin. apply Hk in Hin.
    apply (count_occ_In string_dec) in Hin. lia.
Qed.

(** The state of [buildIndex] after a run of chunks, from any state. *)
Lemma index_fold_tf items : forall st,
  snd (fold_left index_step items st)
  = snd st ++ map (fun it => count_tokens (tokenize (text it)) []) items.
Proof.
  induction items as [|it items IH]; intros st; simpl.
  - now rewrite app_nil_r.
  - rewrite IH. simpl. now rewrite <- app_assoc.
Qed.

Lemma index_fold_df items : forall st t,
  or0 (map_get (fst (fold_left index_step items st)) t)
  = or0 (map_get (fst st) t)
    + List.length
        (filter (occurs_in t)
           (map (fun it => count_tokens (tokenize (text it)) []) items)).
Proof.
  induction items as [|it items IH]; intros st t; simpl.
  - lia.
  - rewrite IH. simpl. rewrite bump_df_get, count_occ_keys.
    destruct (occurs_in t (count_tokens (tokenize (text it)) []));
      simpl; lia.
Qed.

Lemma buildIndex_tf items :
  tf (buildIndex items)
  = map (fun it => count_tokens (tokenize (text it)) []) items.
Proof. unfold buildIndex. simpl. now rewrite index_fold_tf. Qed.

Lemma buildIndex_df items t :
  or0 (map_get (df (buildIndex items)) t)
  = List.length (filter (occurs_in t) (tf (buildIndex items))).
Proof.
  rewrite buildIndex_tf. unfold buildIndex. simpl.
  now rewrite index_fold_df.
Qed.


Lemma filter_map_length {A B : Type} (g : A -> B) (p : B -> bool) l :
  List.length (filter p (map g l))
  = List.length (filter (fun a => p (g a)) l).
Proof.
  induction l as [|a l IH]; simpl; auto.
  destruct (p (g a)); simpl; auto.
Qed.

(** Filtering positions of an array is filtering its elements. *)
Lemma filter_positions_length {A : Type} (p : A -> bool) (l : list A) :
  List.length
    (filter (fun i => match nth_error l i with
                      | Some x => p x
                      | None => false
                      end)
            (seq 0 (List.length l)))
  = List.length (filter p l).
Proof.
  induction l as [|a l IH]; simpl; auto.
  rewrite <- seq_shift.
  destruct (p a); simpl; rewrite filter_map_length; simpl; now rewrite IH.
Qed.

Lemma chunks_with_length idx t :
  List.length (chunks_with idx t)
  = List.length (filter (occurs_in t) (tf idx)).
Proof.
  unfold chunks_with. rewrite <- (filter_positions_length (occurs_in t)).
  f_equal. apply filter_ext. intros i. unfold termFrequency, occurs_in.
  now destruct (nth_error (tf idx) i).
Qed.

Lemma buildIndex_termFrequency items i it t :
  nth_error items i = Some it ->
  termFrequency (buildIndex items) i t
  = count_occ string_dec (tokenize (text it)) t.
Proof.
  intros Hi. unfold termFrequency. rewrite buildIndex_tf.
  rewrite nth_error_map, Hi. simpl. apply counts_get.
Qed.

Lemma buildIndex_snoc_df items it t :
  documentFrequency (buildIndex (items ++ [it])) t
  = documentFrequency (buildIndex items) t
    + (if 0 <? count_occ string_dec (tokenize (text it)) t then 1 else 0).
Proof.
  unfold documentFrequency. rewrite !buildIndex_df, !buildIndex_tf.
  rewrite map_app, filter_app, length_app. simpl.
  unfold occurs_in at 2. rewrite counts_get.
  now destruct (0 <? count_occ string_dec (tokenize (text it)) t).
Qed.

(** C2.  In every index built by [buildIndex], the document frequency of a
    term is the number of chunks whose table counts it at least once; the
    table of a chunk counts the occurrences of each term among the tokens of
    its text, and indexing one more chunk raises the document frequency of a
    term by exactly one when the term occurs in the chunk (whatever the
    number of occurrences) and leaves it unchanged otherwise.  For the
    corpus ["cat dog"; "dog dog"]: df(dog) = 2, df(cat) = 1 and
    tf[1](dog) = 2. *)
Theorem buildIndex_document_frequency :
  (forall items t,
      documentFrequency (buildIndex items) t
      = List.length (chunks_with (buildIndex items) t))
  /\ (forall items i it t,
         nth_error items i = Some it ->
         termFrequency (buildIndex items) i t
         = count_occ string_dec (tokenize (text it)) t)
  /\ (forall items it t,
         documentFrequency (buildIndex (items ++ [it])) t
         = documentFrequency (buildIndex items) t
           + (if in_dec string_dec t (tokenize (text it)) then 1 else 0))
  /\ documentFrequency (buildIndex cat_dog) "dog" = 2
  /\ documentFrequency (buildIndex cat_dog) "cat" = 1
  /\ termFrequency (buildIndex cat_dog) 1 "dog" = 2.
Proof.
  repeat split.
  - intros items t. unfold documentFrequency.
    now rewrite buildIndex_df, chunks_with_length.
  - apply buildIndex_termFrequency.
  - intros items it t. rewrite buildIndex_snoc_df. f_equal.
    destruct (in_dec string_dec t (tokenize (text it))) as [Hin|Hnin].
    + apply (count_occ_In string_dec) in Hin.
      apply Nat.ltb_lt in Hin. now rewrite Hin.
    + apply (count_occ_not_In string_dec) in Hnin. now rewrite Hnin.
Qed.

Lemma buildIndex_document_frequency_witness :
  nth_error cat_dog 1 = Some (chunk_of_text "dog dog")
  /\ termFrequency (buildIndex cat_dog) 1 "dog"
     = count_occ string_dec (tokenize (text (chunk_of_text "dog dog"))) "dog".
Proof.
  split; [reflexivity|].
  exact (proj1 (proj2 buildIndex_document_frequency)
           cat_dog 1 (chunk_of_text "dog dog") "dog" eq_refl).
Defined.

(* ------------------------------------------------------------------ *)
(** ** The score of a chunk *)


Lemma Rsum_Permutation l1 l2 : Permutation l1 l2 -> Rsum l1 = Rsum l2.
Proof.
  unfold Rsum. induction 1; simpl; lra.
Qed.

Lemma sum_over_Permutation {A : Type} (f : A -> R) l1 l2 :
  Permutation l1 l2 -> sum_over l1 f = sum_over l2 f.
Proof.
  intros HP. apply Rsum_Permutation. now apply Permutation_map.
Qed.


Lemma sum_over_nonneg {A : Type} (f : A -> R) l :
  (forall a, In a l -> (0 <= f a)%R) -> (0 <= sum_over l f)%R.
Proof.
  unfold sum_over, Rsum. induction l as [|a l IH]; intros H; simpl.
  - lra.
  - assert (0 <= f a)%R by (apply H; now left).
    assert (0 <= fold_right Rplus 0 (map f l))%R
      by (apply IH; intros; apply H; now right).
    lra.
Qed.

(** One turn of the loop adds the contribution of its entry. *)
Lemma score_step_contribution idx i s t qtf :
  i < List.length (tf idx) ->
  score_step idx i (Some s) (t, qtf)
  = Some (s + contribution idx i qtf t)%R.
Proof.
  intros Hi. unfold score_step, contribution, idf, termFrequency.
  fold (documentFrequency idx t).
  destruct (documentFrequency idx t =? 0).
  - f_equal. lra.
  - destruct (nth_error (tf idx) i) eqn:E; auto.
    apply nth_error_None in E. lia.
Qed.

Lemma score_fold_contributions idx i entries : forall s,
  i < List.length (tf idx) ->
  fold_left (score_step idx i) entries (Some s)
  = Some (s + sum_over entries
                (fun e => contribution idx i (snd e) (fst e)))%R.
Proof.
  induction entries as [|[t qtf] entries IH]; intros s Hi; simpl.
  - unfold sum_over. simpl. f_equal. lra.
  - change (fold_left (score_step idx i) entries
              (score_step idx i (Some s) (t, qtf)) = 
            Some (s + sum_over ((t, qtf) :: entries)
                        (fun e => contribution idx i (snd e) (fst e)))%R).
    rewrite score_step_contribution, IH by assumption.
    unfold sum_over. simpl. f_equal. lra.
Qed.

Lemma map_get_In {V : Type} (m : JsMap V) k v :
  NoDup (map_keys m) -> In (k, v) m -> map_get m k = Some v.
Proof.
  unfold map_keys.
  induction m as [|[k0 v0] m IH]; simpl; intros Hnd Hin; [tauto|].
  inversion Hnd as [|? ? Hnotin Hnd']; subst.
  destruct Hin as [Heq|Hin].
  - inversion Heq; subst. now rewrite String.eqb_refl.
  - destruct (String.eqb k0 k) eqn:E.
    + apply String.eqb_eq in E. subst k0. exfalso. apply Hnotin.
      change k with (fst (k, v)). now apply in_map.
    + auto.
Qed.

(** The entries of the query table, read as a sum over distinct terms. *)
Lemma sum_over_counts (f : nat -> string -> R) tokens :
  sum_over (map_entries (count_tokens tokens [])) (fun e => f (snd e) (fst e))
  = sum_over (nodup string_dec tokens)
             (fun t => f (count_occ string_dec tokens t) t).
Proof.
  set (m := count_tokens tokens []).
  assert (Hnd : NoDup (map_keys m)) by apply counts_NoDup.
  transitivity (sum_over (map_keys m)
                  (fun t => f (count_occ string_dec tokens t) t)).
  - unfold sum_over, map_keys, map_entries. rewrite map_map.
    f_equal. apply map_ext_in. intros [k v] Hin. simpl.
    pose proof (map_get_In m k v Hnd Hin) as Hget.
    pose proof (counts_get tokens k) as Hc. fold m in Hc.
    rewrite Hget in Hc. simpl in Hc. now subst v.
  - apply sum_over_Permutation. apply NoDup_Permutation; auto.
    + apply NoDup_nodup.
    + intros t. unfold m. rewrite counts_keys, nodup_In. tauto.
Qed.

Lemma chunk_score_tfidf query idx i :
  i < List.length (tf idx) ->
  chunk_score (count_tokens (tokenize query) []) idx i
  = Some (tfidf idx i (tokenize query)).
Proof.
  intros Hi. unfold chunk_score. rewrite score_fold_contributions by assumption.
  rewrite (sum_over_counts (fun qtf t => contribution idx i qtf t)).
  unfold tfidf. f_equal. lra.
Qed.

Lemma contribution_formula idx i qtf t :
  documentFrequency idx t <> 0 ->
  contribution idx i qtf t
  = (INR qtf * (1 + ln (1 + INR (termFrequency idx i t)))
     * ln ((INR (N idx) + 1) / (INR (documentFrequency idx t) + 0.5)))%R.
Proof.
  intros Hdf. unfold contribution, idf.
  apply Nat.eqb_neq in Hdf. now rewrite Hdf.
Qed.

Lemma contribution_unknown idx i qtf t :
  documentFrequency idx t = 0 -> contribution idx i qtf t = 0%R.
Proof. intros Hdf. unfold contribution. now rewrite Hdf. Qed.

Lemma contribution_absent idx i qtf t :
  documentFrequency idx t <> 0 -> termFrequency idx i t = 0 ->
  contribution idx i qtf t = (INR qtf * idf idx t)%R.
Proof.
  intros Hdf Htf. rewrite contribution_formula by assumption.
  rewrite Htf. unfold idf. simpl. rewrite Rplus_0_r, ln_1. lra.
Qed.

(* ------------------------------------------------------------------ *)
(** ** Sorting and slicing *)

Section Sorting.

Context {A : Type} (cmp : A -> A -> R).

Lemma insert_by_Permutation x l : Permutation (insert_by cmp x l) (x :: l).
Proof.
  induction l as [|y l IH]; simpl; auto.
  destruct (Rlt_dec (cmp y x) 0); auto.
  rewrite IH. apply perm_swap.
Qed.

Lemma Array_sort_Permutation l : Permutation (Array_sort cmp l) l.
Proof.
  unfold Array_sort. induction l as [|x l IH]; simpl; auto.
  rewrite insert_by_Permutation. now constructor.
Qed.

Lemma Array_sort_length l : List.length (Array_sort cmp l) = List.length l.
Proof. apply Permutation_length, Array_sort_Permutation. Qed.

End Sorting.

Lemma ranks_before_ge a b : ranks_before a b -> (snd a >= snd b)%R.
Proof. unfold ranks_before. intros [H|[H _]]; lra. Qed.

Lemma insert_ranked x l :
  StronglySorted ranks_before l ->
  Forall (fun y => fst x < fst y) l ->
  StronglySorted ranks_before (insert_by by_score_desc x l).
Proof.
  induction l as [|y l IH]; intros Hs Hlt; simpl.
  - repeat constructor.
  - inversion Hs as [|? ? Hs' Hy]; subst.
    inversion Hlt as [|? ? Hxy Hlt']; subst.
    unfold by_score_desc at 1.
    destruct (Rlt_dec (snd x - snd y) 0) as [Hc|Hc].
    + constructor; auto.
      eapply Permutation_Forall.
      * symmetry. apply insert_by_Permutation.
      * constructor; auto. left. lra.
    + constructor; auto. constructor.
      * destruct (Rtotal_order (snd x) (snd y)) as [H|[H|H]].
        -- lra.
        -- right. split; auto.
        -- left. lra.
      * rewrite Forall_forall in *. intros z Hz.
        pose proof (ranks_before_ge _ _ (Hy z Hz)) as Hge.
        destruct (Rtotal_order (snd x) (snd z)) as [H|[H|H]].
        -- lra.
        -- right. split; auto.
        -- left. lra.
Qed.

(** Sorting an array whose entries come in the order of their chunks puts
    it in ranking order. *)
Lemma Array_sort_ranked l :
  StronglySorted lt (map fst l) ->
  StronglySorted ranks_before (Array_sort by_score_desc l).
Proof.
  unfold Array_sort. induction l as [|x l IH]; simpl; intros Hs.
  - constructor.
  - inversion Hs as [|? ? Hs' Hx]; subst.
    apply insert_ranked; auto.
    eapply Permutation_Forall.
    + symmetry. apply (Array_sort_Permutation by_score_desc).
    + rewrite Forall_map in Hx. exact Hx.
Qed.

Lemma firstn_In {A : Type} n : forall (l : list A) x,
  In x (firstn n l) -> In x l.
Proof.
  intros l x Hx. rewrite <- (firstn_skipn n l). apply in_or_app. now left.
Qed.

Lemma StronglySorted_firstn {A : Type} (R : A -> A -> Prop) n l :
  StronglySorted R l -> StronglySorted R (firstn n l).
Proof.
  revert l. induction n as [|n IH]; intros l Hs; simpl.
  - constructor.
  - destruct l as [|x l]; [constructor|].
    inversion Hs as [|? ? Hs' Hx]; subst. constructor; auto.
    rewrite Forall_forall in *. intros y Hy. apply Hx.
    eapply firstn_In. exact Hy.
Qed.

(** The length of a slice, for a requested length of at least one. *)
Lemma slice0_length {A : Type} (l : list A) (k : Z) :
  (0 <= k)%Z ->
  List.length (slice0 l k) = Nat.min (Z.to_nat k) (List.length l).
Proof.
  intros Hk. unfold slice0.
  destruct (Z.ltb_spec k 0) as [H|H]; [lia|].
  rewrite length_firstn. lia.
Qed.

Lemma seq_StronglySorted n : forall a, StronglySorted lt (seq a n).
Proof.
  induction n as [|n IH]; intros a; simpl; constructor; auto.
  rewrite Forall_forall. intros x Hx. apply in_seq in Hx. lia.
Qed.

(* ------------------------------------------------------------------ *)
(** ** The array of scores *)

Lemma score_fold_None idx i entries :
  fold_left (score_step idx i) entries None = None.
Proof. induction entries as [|e entries IH]; simpl; auto. Qed.

Lemma score_step_cases idx i s t qtf :
  score_step idx i (Some s) (t, qtf)
  = Some (s + contribution idx i qtf t)%R
  \/ score_step idx i (Some s) (t, qtf) = None.
Proof.
  unfold score_step, contribution, idf, termFrequency.
  fold (documentFrequency idx t).
  destruct (documentFrequency idx t =? 0).
  - left. f_equal. lra.
  - destruct (nth_error (tf idx) i); auto.
Qed.

Lemma score_fold_value idx i entries : forall s s',
  fold_left (score_step idx i) entries (Some s) = Some s' ->
  s' = (s + sum_over entries
              (fun e => contribution idx i (snd e) (fst e)))%R.
Proof.
  induction entries as [|[t qtf] entries IH]; intros s s' H.
  - simpl in H. inversion H. unfold sum_over. simpl. lra.
  - change (fold_left (score_step idx i) entries
              (score_step idx i (Some s) (t, qtf)) = Some s') in H.
    destruct (score_step_cases idx i s t qtf) as [E|E]; rewrite E in H.
    + apply IH in H. rewrite H. unfold sum_over. simpl. lra.
    + rewrite score_fold_None in H. discriminate.
Qed.

(** Whenever the score of a chunk is computed, it is the sum of the
    contributions of the distinct query terms. *)
Lemma chunk_score_value tokens idx i s :
  chunk_score (count_tokens tokens []) idx i = Some s ->
  s = tfidf idx i tokens.
Proof.
  intros H. apply score_fold_value in H. rewrite H.
  rewrite (sum_over_counts (fun qtf t => contribution idx i qtf t)).
  unfold tfidf. lra.
Qed.

Lemma score_fold_unknown idx i entries : forall s,
  (forall e, In e entries -> documentFrequency idx (fst e) = 0) ->
  fold_left (score_step idx i) entries (Some s) = Some s.
Proof.
  induction entries as [|[t qtf] entries IH]; intros s H; simpl; auto.
  assert (Ht : documentFrequency idx t = 0) by (apply (H (t, qtf)); now left).
  unfold documentFrequency in Ht. rewrite Ht. simpl.
  apply IH. intros e He. apply H. now right.
Qed.

Lemma chunk_score_unknown tokens idx i :
  (forall t, In t tokens -> documentFrequency idx t = 0) ->
  chunk_score (count_tokens tokens []) idx i = Some 0%R.
Proof.
  intros H. unfold chunk_score. apply score_fold_unknown.
  intros [t qtf] He. apply H. apply counts_keys.
  unfold map_keys, map_entries in *. change t with (fst (t, qtf)).
  now apply in_map.
Qed.

Lemma sequence_indexed {B : Type} (g : nat -> option B) (h : nat -> B) l :
  (forall i, In i l -> g i = Some (h i)) ->
  sequence (map (fun i => option_map (pair i) (g i)) l)
  = Some (map (fun i => (i, h i)) l).
Proof.
  induction l as [|a l IH]; intros H; simpl; auto.
  rewrite (H a) by now left. simpl.
  rewrite IH; auto. intros i Hi. apply H. now right.
Qed.

Lemma sequence_indexed_inv {B : Type} (g : nat -> option B) l : forall r,
  sequence (map (fun i => option_map (pair i) (g i)) l) = Some r ->
  map fst r = l /\ Forall (fun e => g (fst e) = Some (snd e)) r.
Proof.
  induction l as [|a l IH]; intros r H; simpl in H.
  - inversion H. split; constructor.
  - destruct (g a) as [b|] eqn:E; simpl in H; [|discriminate].
    destruct (sequence (map (fun i => option_map (pair i) (g i)) l))
      as [r'|] eqn:E'; [|discriminate].
    inversion H; subst. destruct (IH r' eq_refl) as [Hf Hg].
    split; simpl; [now f_equal | constructor; auto].
Qed.

Lemma buildIndex_well_formed items : well_formed (buildIndex items).
Proof.
  unfold well_formed. rewrite buildIndex_tf, length_map. reflexivity.
Qed.

Lemma all_scores_well_formed tokens idx :
  well_formed idx ->
  all_scores (count_tokens tokens []) idx
  = Some (map (fun i => (i, tfidf idx i tokens))
              (seq 0 (List.length (items idx)))).
Proof.
  intros Hwf. unfold all_scores. apply sequence_indexed.
  intros i Hi. apply in_seq in Hi.
  unfold chunk_score. rewrite score_fold_contributions.
  - rewrite (sum_over_counts (fun qtf t => contribution idx i qtf t)).
    unfold tfidf. f_equal. lra.
  - unfold well_formed in Hwf. lia.
Qed.

Lemma all_scores_unknown tokens idx :
  (forall t, In t tokens -> documentFrequency idx t = 0) ->
  all_scores (count_tokens tokens []) idx
  = Some (map (fun i => (i, 0%R)) (seq 0 (List.length (items idx)))).
Proof.
  intros H. unfold all_scores. apply sequence_indexed.
  intros i _. now apply chunk_score_unknown.
Qed.

Lemma all_scores_inv tokens idx scores :
  all_scores (count_tokens tokens []) idx = Some scores ->
  map fst scores = seq 0 (List.length (items idx))
  /\ Forall (fun e => snd e = tfidf idx (fst e) tokens) scores.
Proof.
  intros H. apply sequence_indexed_inv in H. destruct H as [Hf Hg].
  split; auto. eapply Forall_impl; [|exact Hg].
  intros e He. simpl in He. symmetry. now apply chunk_score_value in He.
Qed.

(** An array of equal scores is left as it is by the sort. *)
Lemma Array_sort_ties (l : list (nat * R)) (v : R) :
  Forall (fun e => snd e = v) l -> Array_sort by_score_desc l = l.
Proof.
  unfold Array_sort. induction l as [|x l IH]; intros H; simpl; auto.
  inversion H as [|? ? Hx Hl]; subst. rewrite IH by assumption.
  destruct l as [|y l]; simpl; auto.
  inversion Hl as [|? ? Hy _]; subst.
  unfold by_score_desc. destruct (Rlt_dec (snd x - snd y) 0); auto. lra.
Qed.

(** C1 (amended).  For every query, every index and every chunk [i] that
    has a table in the index (every chunk of an index built by [buildIndex]
    has one), the score computed for chunk [i] is the sum, over the distinct
    query terms [t] with query count [qtf], of the contribution of [t]:
    nothing when [documentFrequency t = 0], and otherwise
    [qtf * (1 + ln (1 + termFrequency i t))
     * ln ((N + 1) / (documentFrequency t + 0.5))].
    Whenever a score is computed at all, it is that sum.  A term absent from
    chunk [i] but present in the corpus contributes [qtf * idf t]:
    [ln (1 + 0) = 0] removes only the damped frequency, not the whole
    term. *)
Theorem score_is_sum_of_contributions :
  (forall query idx i,
      i < List.length (tf idx) ->
      chunk_score (count_tokens (tokenize query) []) idx i
      = Some (sum_over (nodup string_dec (tokenize query))
                (fun t => contribution idx i
                            (count_occ string_dec (tokenize query) t) t)))
  /\ (forall query idx i s,
         chunk_score (count_tokens (tokenize query) []) idx i = Some s ->
         s = sum_over (nodup string_dec (tokenize query))
               (fun t => contribution idx i
                           (count_occ string_dec (tokenize query) t) t))
  /\ (forall query items,
         all_scores (count_tokens (tokenize query) []) (buildIndex items)
         = Some (map (fun i =>
                        (i, sum_over (nodup string_dec (tokenize query))
                              (fun t => contribution (buildIndex items) i
                                 (count_occ string_dec (tokenize query) t) t)))
                     (seq 0 (List.length items))))
  /\ (forall idx i qtf t,
         documentFrequency idx t = 0 -> contribution idx i qtf t = 0%R)
  /\ (forall idx i qtf t,
         documentFrequency idx t <> 0 ->
         contribution idx i qtf t
         = (INR qtf * (1 + ln (1 + INR (termFrequency idx i t)))
            * ln ((INR (N idx) + 1)
                  / (INR (documentFrequency idx t) + 0.5)))%R)
  /\ (forall idx i qtf t,
         documentFrequency idx t <> 0 -> termFrequency idx i t = 0 ->
         contribution idx i qtf t
         = (INR qtf * ln ((INR (N idx) + 1)
                          / (INR (documentFrequency idx t) + 0.5)))%R).
Proof.
  split; [intros; now apply chunk_score_tfidf|].
  split; [intros query idx i s H; now apply chunk_score_value in H|].
  split.
  { intros query items.
    apply (all_scores_well_formed (tokenize query) (buildIndex items)).
    apply buildIndex_well_formed. }
  split; [intros; now apply contribution_unknown|].
  split; [intros; now apply contribution_formula|].
  intros. now apply contribution_absent.
Qed.

Lemma score_is_sum_of_contributions_witness :
  1 < List.length (tf (buildIndex cat_dog))
  /\ chunk_score (count_tokens (tokenize "cat") []) (buildIndex cat_dog) 1
     = Some (sum_over (nodup string_dec (tokenize "cat"))
               (fun t => contribution (buildIndex cat_dog) 1
                           (count_occ string_dec (tokenize "cat") t) t)).
Proof.
  split.
  - simpl. lia.
  - apply (proj1 score_is_sum_of_contributions "cat" (buildIndex cat_dog) 1).
    simpl. lia.
Defined.

Lemma ln_2_pos : (0 < ln 2)%R.
Proof. rewrite <- ln_1. apply ln_increasing; lra. Qed.

(** Query "cat" against the corpus ["cat dog"; "dog dog"]: the term is
    absent from chunk 1, the score of chunk 1 is [ln 2], and the sum as the
    specification words it is [0]. *)
Lemma absent_term_contributes :
  termFrequency (buildIndex cat_dog) 1 "cat" = 0
  /\ chunk_score (count_tokens (tokenize "cat") []) (buildIndex cat_dog) 1
     = Some (ln 2)
  /\ spec_tfidf (buildIndex cat_dog) 1 (tokenize "cat") = 0%R
  /\ chunk_score (count_tokens (tokenize "cat") []) (buildIndex cat_dog) 1
     <> Some (spec_tfidf (buildIndex cat_dog) 1 (tokenize "cat")).
Proof.
  assert (Htf : termFrequency (buildIndex cat_dog) 1 "cat" = 0)
    by reflexivity.
  assert (Hdf : documentFrequency (buildIndex cat_dog) "cat" = 1)
    by reflexivity.
  assert (Hs : chunk_score (count_tokens (tokenize "cat") [])
                 (buildIndex cat_dog) 1 = Some (ln 2)).
  { rewrite chunk_score_tfidf by (simpl; lia).
    change (tokenize "cat") with ["cat"]. unfold tfidf, sum_over.
    change (nodup string_dec ["cat"]) with ["cat"].
    change (count_occ string_dec ["cat"] "cat") with 1.
    cbn [map Rsum fold_right].
    rewrite contribution_absent by (rewrite ?Hdf; auto).
    unfold idf. rewrite Hdf.
    change (N (buildIndex cat_dog)) with 2.
    simpl. f_equal.
    replace ((1 + 1 + 1) / (1 + 0.5))%R with 2%R by lra. lra. }
  assert (Hspec : spec_tfidf (buildIndex cat_dog) 1 (tokenize "cat") = 0%R).
  { change (tokenize "cat") with ["cat"].
    unfold spec_tfidf, sum_over, spec_contribution.
    change (nodup string_dec ["cat"]) with ["cat"].
    cbn [map Rsum fold_right].
    rewrite Hdf, Htf. simpl. lra. }
  repeat split; auto.
  rewrite Hs, Hspec. intros H. inversion H as [H2].
  pose proof ln_2_pos. lra.
Qed.

(* ------------------------------------------------------------------ *)
(** ** Scores are never negative *)

Lemma buildIndex_df_le_N items t :
  documentFrequency (buildIndex items) t <= N (buildIndex items).
Proof.
  unfold documentFrequency. rewrite buildIndex_df.
  etransitivity; [apply filter_length_le|].
  rewrite buildIndex_tf, length_map. reflexivity.
Qed.

Lemma idf_positive idx t :
  documentFrequency idx t <= N idx -> (0 < idf idx t)%R.
Proof.
  intros Hle. unfold idf. apply le_INR in Hle.
  pose proof (pos_INR (documentFrequency idx t)) as Hdf.
  rewrite <- ln_1. apply ln_increasing; [lra|].
  apply Rmult_lt_reg_r with (r := (INR (documentFrequency idx t) + 0.5)%R);
    [lra|].
  unfold Rdiv. rewrite Rmult_assoc, Rinv_l by lra. lra.
Qed.

Lemma damped_frequency_ge_1 (n : nat) : (1 <= 1 + ln (1 + INR n))%R.
Proof.
  pose proof (pos_INR n) as Hn.
  assert (0 <= ln (1 + INR n))%R; [|lra].
  destruct (Req_dec (INR n) 0) as [E|E].
  - rewrite E, Rplus_0_r, ln_1. lra.
  - rewrite <- ln_1. left. apply ln_increasing; lra.
Qed.

Lemma contribution_nonneg idx i qtf t :
  documentFrequency idx t <= N idx -> (0 <= contribution idx i qtf t)%R.
Proof.
  intros Hle. unfold contribution.
  destruct (documentFrequency idx t =? 0); [lra|].
  pose proof (idf_positive idx t Hle).
  pose proof (damped_frequency_ge_1 (termFrequency idx i t)).
  pose proof (pos_INR qtf).
  apply Rmult_le_pos; [apply Rmult_le_pos|]; lra.
Qed.

Lemma tfidf_nonneg items i tokens :
  (0 <= tfidf (buildIndex items) i tokens)%R.
Proof.
  unfold tfidf. apply sum_over_nonneg. intros t _.
  apply contribution_nonneg, buildIndex_df_le_N.
Qed.

Lemma slice0_In {A : Type} (l : list A) k x : In x (slice0 l k) -> In x l.
Proof. unfold slice0. apply firstn_In. Qed.

(** The result of [score] on an index with one table per chunk. *)
Lemma ranking_well_formed query idx topK :
  well_formed idx ->
  ranking query idx topK
  = Some (slice0
            (Array_sort by_score_desc
               (map (fun i => (i, tfidf idx i (tokenize query)))
                    (seq 0 (List.length (items idx)))))
            topK).
Proof.
  intros Hwf. unfold ranking. now rewrite all_scores_well_formed.
Qed.

(** C10.  In an index built by [buildIndex], a term of non-zero document
    frequency has [1 <= documentFrequency <= N] and a strictly positive
    inverse document frequency; every contribution is non-negative; and for
    every query and every [topK], [score] returns scored chunks whose
    scores are all [>= 0]. *)
Theorem score_nonnegative query items topK :
  (forall t, documentFrequency (buildIndex items) t <> 0 ->
             1 <= documentFrequency (buildIndex items) t <= N (buildIndex items)
             /\ (0 < ln ((INR (N (buildIndex items)) + 1)
                         / (INR (documentFrequency (buildIndex items) t) + 0.5)))%R)
  /\ (forall i qtf t, (0 <= contribution (buildIndex items) i qtf t)%R)
  /\ exists res,
       score query (buildIndex items) topK = Some res
       /\ Forall (fun sc => (0 <= sc_score sc)%R) res.
Proof.
  split; [|split].
  - intros t Ht. pose proof (buildIndex_df_le_N items t) as Hle.
    split; [lia|]. now apply idf_positive.
  - intros i qtf t. apply contribution_nonneg, buildIndex_df_le_N.
  - unfold score.
    rewrite ranking_well_formed by apply buildIndex_well_formed.
    eexists. split; [reflexivity|].
    rewrite Forall_map, Forall_forall. intros e He. simpl.
    apply slice0_In in He.
    apply (Permutation_in _ (Array_sort_Permutation by_score_desc _)) in He.
    apply in_map_iff in He. destruct He as [i [<- _]]. simpl.
    apply tfidf_nonneg.
Qed.

Lemma score_nonnegative_witness :
  documentFrequency (buildIndex cat_dog) "cat" = 1
  /\ 1 <= documentFrequency (buildIndex cat_dog) "cat" <= N (buildIndex cat_dog)
  /\ (0 < ln ((INR (N (buildIndex cat_dog)) + 1)
              / (INR (documentFrequency (buildIndex cat_dog) "cat") + 0.5)))%R.
Proof.
  split; [reflexivity|].
  apply (proj1 (score_nonnegative "cat" cat_dog 8) "cat").
  discriminate.
Defined.

(* ------------------------------------------------------------------ *)
(** ** A more frequent term never lowers the score *)

Lemma contribution_monotone items i j qtf t :
  termFrequency (buildIndex items) i t <= termFrequency (buildIndex items) j t ->
  (contribution (buildIndex items) i qtf t
   <= contribution (buildIndex items) j qtf t)%R.
Proof.
  intros Hle. unfold contribution.
  destruct (documentFrequency (buildIndex items) t =? 0); [lra|].
  pose proof (idf_positive (buildIndex items) t (buildIndex_df_le_N items t)).
  pose proof (pos_INR qtf).
  pose proof (pos_INR (termFrequency (buildIndex items) i t)).
  apply le_INR in Hle.
  apply Rmult_le_compat_r; [lra|].
  apply Rmult_le_compat_l; [lra|].
  apply Rplus_le_compat_l.
  destruct (Rle_lt_or_eq_dec _ _ Hle) as [Hlt|Heq].
  - left. apply ln_increasing; lra.
  - rewrite Heq. lra.
Qed.

Lemma single_term_monotone items query t i j :
  nodup string_dec (tokenize query) = [t] ->
  i < List.length items -> j < List.length items ->
  termFrequency (buildIndex items) i t <= termFrequency (buildIndex items) j t ->
  exists si sj,
    chunk_score (count_tokens (tokenize query) []) (buildIndex items) i = Some si
    /\ chunk_score (count_tokens (tokenize query) []) (buildIndex items) j
       = Some sj
    /\ (si <= sj)%R.
Proof.
  intros Hq Hi Hj Hle.
  assert (Hwf : List.length (tf (buildIndex items)) = List.length items)
    by (rewrite buildIndex_tf; apply length_map).
  exists (tfidf (buildIndex items) i (tokenize query)),
         (tfidf (buildIndex items) j (tokenize query)).
  split; [apply chunk_score_tfidf; lia|].
  split; [apply chunk_score_tfidf; lia|].
  unfold tfidf, sum_over. rewrite Hq. simpl.
  apply Rplus_le_compat_r. now apply contribution_monotone.
Qed.

Lemma contribution_strict items i j qtf t :
  documentFrequency (buildIndex items) t <> 0 -> 0 < qtf ->
  termFrequency (buildIndex items) i t < termFrequency (buildIndex items) j t ->
  (contribution (buildIndex items) i qtf t
   < contribution (buildIndex items) j qtf t)%R.
Proof.
  intros Hdf Hq Hlt. rewrite !contribution_formula by assumption.
  pose proof (idf_positive (buildIndex items) t (buildIndex_df_le_N items t))
    as Hidf. unfold idf in Hidf.
  pose proof (pos_INR (termFrequency (buildIndex items) i t)).
  apply lt_INR in Hlt. apply lt_INR in Hq. simpl in Hq.
  apply Rmult_lt_compat_r; [assumption|].
  apply Rmult_lt_compat_l; [assumption|].
  apply Rplus_lt_compat_l. apply ln_increasing; lra.
Qed.

(** The query "dog" against the corpus ["cat dog"; "dog dog"]: chunk 1
    scores strictly higher and is returned first. *)
Lemma dog_ranking :
  exists s0 s1,
    chunk_score (count_tokens (tokenize "dog") []) (buildIndex cat_dog) 0
    = Some s0
    /\ chunk_score (count_tokens (tokenize "dog") []) (buildIndex cat_dog) 1
       = Some s1
    /\ (s0 < s1)%R
    /\ ranking "dog" (buildIndex cat_dog) 8 = Some [(1, s1); (0, s0)].
Proof.
  exists (tfidf (buildIndex cat_dog) 0 (tokenize "dog")),
         (tfidf (buildIndex cat_dog) 1 (tokenize "dog")).
  assert (Hlt : (tfidf (buildIndex cat_dog) 0 (tokenize "dog")
                 < tfidf (buildIndex cat_dog) 1 (tokenize "dog"))%R).
  { change (tokenize "dog") with ["dog"]. unfold tfidf, sum_over.
    change (nodup string_dec ["dog"]) with ["dog"].
    cbn [map Rsum fold_right].
    apply Rplus_lt_compat_r. apply contribution_strict.
    - discriminate.
    - apply Nat.ltb_lt. reflexivity.
    - apply Nat.ltb_lt. reflexivity. }
  split; [apply chunk_score_tfidf; simpl; lia|].
  split; [apply chunk_score_tfidf; simpl; lia|].
  split; [exact Hlt|].
  rewrite ranking_well_formed by apply buildIndex_well_formed.
  change (List.length (items (buildIndex cat_dog))) with 2.
  cbn [seq map Array_sort fold_right insert_by].
  unfold by_score_desc at 1. cbn [snd].
  destruct (Rlt_dec _ 0) as [_|Hn]; [reflexivity | lra].
Qed.

(** C4.  With the corpus ["cat dog"; "dog dog"] indexed by [buildIndex],
    the query "dog" gives chunk 1 a score at least as high as chunk 0
    (strictly higher, and chunk 1 is returned first); and in every index
    built by [buildIndex], for a query whose only distinct term is [t], a
    chunk in which [t] is at least as frequent as in another chunk scores
    at least as high as that chunk. *)
Theorem more_frequent_scores_higher :
  (exists s0 s1,
      chunk_score (count_tokens (tokenize "dog") []) (buildIndex cat_dog) 0
      = Some s0
      /\ chunk_score (count_tokens (tokenize "dog") []) (buildIndex cat_dog) 1
         = Some s1
      /\ (s0 <= s1)%R
      /\ ranking "dog" (buildIndex cat_dog) 8 = Some [(1, s1); (0, s0)])
  /\ (forall items query t i j,
         nodup string_dec (tokenize query) = [t] ->
         i < List.length items -> j < List.length items ->
         termFrequency (buildIndex items) i t
         <= termFrequency (buildIndex items) j t ->
         exists si sj,
           chunk_score (count_tokens (tokenize query) []) (buildIndex items) i
           = Some si
           /\ chunk_score (count_tokens (tokenize query) [])
                (buildIndex items) j = Some sj
           /\ (si <= sj)%R).
Proof.
  split.
  - destruct dog_ranking as [s0 [s1 [H0 [H1 [Hlt Hr]]]]].
    exists s0, s1. repeat split; auto. lra.
  - apply single_term_monotone.
Qed.

(** The query "B!" against a corpus of three chunks: its only term "b" is
    at least as frequent in chunk 2 as in chunk 1. *)
Lemma more_frequent_scores_higher_witness :
  let items := map chunk_of_text ["a b b"; "b"; "b b b"] in
  (nodup string_dec (tokenize "B!") = ["b"]
   /\ 1 < List.length items /\ 2 < List.length items
   /\ termFrequency (buildIndex items) 1 "b"
      <= termFrequency (buildIndex items) 2 "b")
  /\ exists s1 s2,
       chunk_score (count_tokens (tokenize "B!") []) (buildIndex items) 1
       = Some s1
       /\ chunk_score (count_tokens (tokenize "B!") []) (buildIndex items) 2
          = Some s2
       /\ (s1 <= s2)%R.
Proof.
  intros items.
  assert (Hq : nodup string_dec (tokenize "B!") = ["b"]) by reflexivity.
  assert (H1 : 1 < List.length items) by (simpl; lia).
  assert (H2 : 2 < List.length items) by (simpl; lia).
  assert (Hle : termFrequency (buildIndex items) 1 "b"
                <= termFrequency (buildIndex items) 2 "b")
    by (apply Nat.leb_le; reflexivity).
  split; [repeat split; assumption|].
  exact (proj2 more_frequent_scores_higher items "B!" "b" 1 2 Hq H1 H2 Hle).
Defined.

(* ------------------------------------------------------------------ *)
(** ** Ranking order *)

Lemma slice0_firstn {A : Type} (l : list A) (k : Z) :
  (0 <= k)%Z -> slice0 l k = firstn (Z.to_nat k) l.
Proof.
  intros Hk. unfold slice0.
  destruct (Z.ltb_spec k 0) as [H|H]; [lia|].
  destruct (Z.le_ge_cases k (Z.of_nat (List.length l))) as [Hle|Hge].
  - now rewrite Z.min_l.
  - rewrite Z.min_r, Nat2Z.id, firstn_all by assumption.
    symmetry. apply firstn_all2. lia.
Qed.

Lemma nth_error_seq_map {A : Type} (l : list A) :
  map (nth_error l) (seq 0 (List.length l)) = map Some l.
Proof.
  induction l as [|a l IH]; simpl; auto.
  f_equal. rewrite <- seq_shift, map_map. exact IH.
Qed.

Lemma firstn_seq_min k : forall a n,
  firstn k (seq a n) = seq a (Nat.min k n).
Proof.
  induction k as [|k IH]; intros a n; simpl; auto.
  destruct n as [|n]; simpl; auto. now rewrite IH.
Qed.

Lemma ranks_before_asym a b : ranks_before a b -> ~ ranks_before b a.
Proof. unfold ranks_before. intros [H|[H H']] [G|[G G']]; try lra. lia. Qed.

(** Ranking order leaves no choice: two arrangements of the same entries
    that are both in ranking order are the same array. *)
Lemma ranked_unique l1 : forall l2,
  StronglySorted ranks_before l1 -> StronglySorted ranks_before l2 ->
  Permutation l1 l2 -> l1 = l2.
Proof.
  induction l1 as [|x l1 IH]; intros l2 H1 H2 HP.
  - apply Permutation_nil in HP. now subst.
  - destruct l2 as [|y l2].
    + apply Permutation_sym, Permutation_nil in HP. discriminate.
    + inversion H1 as [|? ? H1' Hx]; subst.
      inversion H2 as [|? ? H2' Hy]; subst.
      rewrite Forall_forall in Hx, Hy.
      assert (Exy : x = y).
      { assert (Hxin : In x (y :: l2))
          by (apply (Permutation_in _ HP); now left).
        assert (Hyin : In y (x :: l1))
          by (apply (Permutation_in _ (Permutation_sym HP)); now left).
        destruct Hxin as [E|Hxin]; [auto|].
        destruct Hyin as [E|Hyin]; [auto|].
        exfalso. apply (ranks_before_asym x y); auto. }
      subst y. f_equal. apply IH; auto.
      now apply Permutation_cons_inv in HP.
Qed.

Lemma score_of_ranking query idx topK r :
  ranking query idx topK = Some r ->
  score query idx topK = Some (map (attach idx) r).
Proof. intros H. unfold score. rewrite H. reflexivity. Qed.

Lemma ranking_sorted query idx topK r :
  ranking query idx topK = Some r ->
  exists scores,
    all_scores (count_tokens (tokenize query) []) idx = Some scores
    /\ map fst scores = seq 0 (List.length (items idx))
    /\ Forall (fun e => snd e = tfidf idx (fst e) (tokenize query)) scores
    /\ Permutation (Array_sort by_score_desc scores) scores
    /\ StronglySorted ranks_before (Array_sort by_score_desc scores)
    /\ r = slice0 (Array_sort by_score_desc scores) topK
    /\ StronglySorted ranks_before r.
Proof.
  unfold ranking. intros H.
  destruct (all_scores (count_tokens (tokenize query) []) idx)
    as [scores|] eqn:E; [|discriminate].
  inversion H; subst. exists scores.
  destruct (all_scores_inv _ _ _ E) as [Hf Hv].
  assert (Hs : StronglySorted ranks_before (Array_sort by_score_desc scores)).
  { apply Array_sort_ranked. rewrite Hf. apply seq_StronglySorted. }
  repeat split; auto.
  - apply Array_sort_Permutation.
  - unfold slice0. now apply StronglySorted_firstn.
Qed.

Lemma score_unknown_terms query idx topK :
  (forall t, In t (tokenize query) -> documentFrequency idx t = 0) ->
  (0 <= topK)%Z ->
  ranking query idx topK
  = Some (map (fun i => (i, 0%R))
              (seq 0 (Nat.min (Z.to_nat topK) (List.length (items idx)))))
  /\ score query idx topK
     = Some (map (fun c => {| sc_chunk := Some c; sc_score := 0%R |})
                 (firstn (Z.to_nat topK) (items idx))).
Proof.
  intros Hq Hk.
  assert (Hr : ranking query idx topK
               = Some (firstn (Z.to_nat topK)
                         (map (fun i => (i, 0%R))
                              (seq 0 (List.length (items idx)))))).
  { unfold ranking. rewrite all_scores_unknown by assumption.
    rewrite (Array_sort_ties _ 0%R).
    - now rewrite slice0_firstn.
    - rewrite Forall_map, Forall_forall. reflexivity. }
  split.
  - rewrite Hr. f_equal. now rewrite firstn_map, firstn_seq_min.
  - rewrite (score_of_ranking _ _ _ _ Hr). f_equal.
    rewrite firstn_map, map_map. unfold attach. simpl.
    rewrite <- (map_map (nth_error (items idx))
                  (fun o => {| sc_chunk := o; sc_score := 0%R |})).
    rewrite <- firstn_map, nth_error_seq_map, firstn_map, map_map.
    reflexivity.
Qed.

(** C3.  Whenever [score] returns, the array it sorted is a permutation of
    the scores of all chunks, in ranking order: by descending score, and by
    original place in the corpus among equal scores; ranking order leaves no
    choice of arrangement; the result is the first [topK] entries of it,
    hence in ranking order too.  On an index built by [buildIndex] it always
    returns.  A query whose terms all have document frequency 0 returns the
    first [topK] chunks of the corpus in their original order, each with
    score 0. *)
Theorem score_sorted_stable :
  (forall query idx topK r,
      ranking query idx topK = Some r ->
      (exists scores,
          all_scores (count_tokens (tokenize query) []) idx = Some scores
          /\ map fst scores = seq 0 (List.length (items idx))
          /\ Permutation (Array_sort by_score_desc scores) scores
          /\ StronglySorted ranks_before (Array_sort by_score_desc scores)
          /\ (forall l, Permutation l scores ->
                        StronglySorted ranks_before l ->
                        l = Array_sort by_score_desc scores)
          /\ r = slice0 (Array_sort by_score_desc scores) topK)
      /\ StronglySorted ranks_before r
      /\ score query idx topK = Some (map (attach idx) r))
  /\ (forall query items topK,
         exists r,
           ranking query (buildIndex items) topK = Some r
           /\ StronglySorted ranks_before r
           /\ score query (buildIndex items) topK
              = Some (map (attach (buildIndex items)) r))
  /\ (forall query idx topK,
         (forall t, In t (tokenize query) -> documentFrequency idx t = 0) ->
         (0 <= topK)%Z ->
         score query idx topK
         = Some (map (fun c => {| sc_chunk := Some c; sc_score := 0%R |})
                     (firstn (Z.to_nat topK) (items idx)))).
Proof.
  split; [|split].
  - intros query idx topK r H.
    destruct (ranking_sorted _ _ _ _ H)
      as [scores [Ha [Hf [_ [Hp [Hs [Hr Hsr]]]]]]].
    split.
    { exists scores. repeat split; auto.
      intros l Hl Hsl. apply ranked_unique; auto.
      rewrite Hl. symmetry. apply Array_sort_Permutation. }
    split; [assumption|]. now apply score_of_ranking.
  - intros query items topK.
    pose proof (ranking_well_formed query (buildIndex items) topK
                  (buildIndex_well_formed items)) as Hr.
    eexists. split; [exact Hr|].
    destruct (ranking_sorted _ _ _ _ Hr) as [_ [_ [_ [_ [_ [_ [_ Hs]]]]]]].
    split; [exact Hs|]. now apply score_of_ranking.
  - intros query idx topK Hq Hk. now apply score_unknown_terms.
Qed.

(** The query "bird" against the corpus ["cat dog"; "dog dog"]: no term of
    it is in the corpus, and both chunks come back in corpus order with
    score 0. *)
Lemma score_sorted_stable_witness :
  (forall t, In t (tokenize "bird") ->
             documentFrequency (buildIndex cat_dog) t = 0)
  /\ score "bird" (buildIndex cat_dog) 8
     = Some [ {| sc_chunk := Some (chunk_of_text "cat dog"); sc_score := 0%R |};
              {| sc_chunk := Some (chunk_of_text "dog dog"); sc_score := 0%R |} ].
Proof.
  assert (H : forall t, In t (tokenize "bird") ->
                        documentFrequency (buildIndex cat_dog) t = 0).
  { intros t [<-|[]]. reflexivity. }
  split; [exact H|].
  apply (proj2 (proj2 score_sorted_stable) "bird" (buildIndex cat_dog) 8%Z H).
  lia.
Defined.

(* ------------------------------------------------------------------ *)
(** ** Number of results *)

Lemma score_length query items topK :
  (0 <= topK)%Z ->
  exists res,
    score query (buildIndex items) topK = Some res
    /\ List.length res = Nat.min (Z.to_nat topK) (List.length items).
Proof.
  intros Hk. unfold score.
  rewrite ranking_well_formed by apply buildIndex_well_formed.
  eexists. split; [reflexivity|].
  rewrite length_map, slice0_length, Array_sort_length, length_map, length_seq
    by assumption.
  reflexivity.
Qed.

(* ------------------------------------------------------------------ *)
(** ** Tokenizer *)

Lemma append_assoc (a b c : string) :
  ((a ++ b) ++ c = a ++ (b ++ c))%string.
Proof. induction a as [|x a IH]; simpl; congruence. Qed.

Lemma append_nil_r (a : string) : (a ++ EmptyString)%string = a.
Proof. induction a as [|x a IH]; simpl; congruence. Qed.

Lemma snoc_append cur c s :
  (snoc cur c ++ s)%string = (cur ++ String c s)%string.
Proof. unfold snoc. now rewrite append_assoc. Qed.

Lemma string_forall_append P a b :
  string_forall P (a ++ b) = string_forall P a && string_forall P b.
Proof.
  induction a as [|x a IH]; simpl; auto.
  rewrite IH. now rewrite andb_assoc.
Qed.





Lemma truthy_nonempty s : truthy s = true <-> s <> EmptyString.
Proof. destruct s; simpl; split; congruence. Qed.











(* ------------------------------------------------------------------ *)
(** ** Tokenizer on every text *)

























(* ------------------------------------------------------------------ *)
(** ** Corpus assembly *)

Lemma forEach_push_chunks title date url parts : forall idx items,
  forEach_push title date url parts idx items
  = items ++ map (fun kp => paragraph_chunk title date url (fst kp) (snd kp))
                 (combine (seq idx (List.length parts)) parts).
Proof.
  induction parts as [|p parts IH]; intros idx items; simpl.
  - now rewrite app_nil_r.
  - rewrite IH, <- app_assoc. reflexivity.
Qed.

Lemma add_record_chunks date_of items t :
  add_record date_of items t = items ++ record_chunks date_of t.
Proof.
  unfold add_record, record_chunks, paragraphs.
  destruct (truthy (or_str (transcription t) "")) eqn:E; simpl.
  - apply forEach_push_chunks.
  - destruct (or_str (transcription t) ""); [|discriminate].
    simpl. now rewrite app_nil_r.
Qed.

Lemma fold_add_record date_of ts : forall items,
  fold_left (add_record date_of) ts items
  = items ++ List.concat (map (record_chunks date_of) ts).
Proof.
  induction ts as [|t ts IH]; intros items; simpl.
  - now rewrite app_nil_r.
  - now rewrite IH, add_record_chunks, <- app_assoc.
Qed.

Lemma assemble_chunks data :
  assemble data
  = List.concat (map (record_chunks transcription_date)
                     (records (transcriptions data)))
    ++ List.concat (map (record_chunks video_date) (records (videos data))).
Proof.
  unfold assemble, records.
  destruct (transcriptions data) as [ts|], (videos data) as [vs|]; simpl;
    rewrite ?fold_add_record; simpl; now rewrite ?app_nil_r.
Qed.

Lemma combine_seq_nth {A : Type} (l : list A) : forall a k x,
  nth_error l k = Some x ->
  nth_error (combine (seq a (List.length l)) l) k = Some (a + k, x).
Proof.
  induction l as [|y l IH]; intros a k x Hk; destruct k as [|k];
    simpl in *; try discriminate.
  - inversion Hk. now rewrite Nat.add_0_r.
  - rewrite (IH (S a) k x Hk). f_equal. f_equal. lia.
Qed.

Lemma record_chunks_nth date_of t k p :
  nth_error (paragraphs (or_str (transcription t) "")) k = Some p ->
  nth_error (record_chunks date_of t) k
  = Some (paragraph_chunk (or_str (meta_field m_title t) "Untitled")
            (date_of t) (or_str (meta_field m_url t) "") k p).
Proof.
  intros Hk. unfold record_chunks.
  rewrite nth_error_map, (combine_seq_nth _ 0 k p Hk). reflexivity.
Qed.

Lemma record_chunks_length date_of t :
  List.length (record_chunks date_of t)
  = List.length (paragraphs (or_str (transcription t) "")).
Proof.
  unfold record_chunks.
  rewrite length_map, length_combine, length_seq. apply Nat.min_id.
Qed.

Lemma str_slice0_length n : forall p,
  String.length (str_slice0 p n) = Nat.min n (String.length p).
Proof.
  unfold str_slice0. induction n as [|n IH]; intros p; destruct p as [|c p];
    simpl; auto.
Qed.

Lemma str_slice0_prefix n : forall p,
  exists rest, p = (str_slice0 p n ++ rest)%string.
Proof.
  unfold str_slice0. induction n as [|n IH]; intros p; destruct p as [|c p];
    simpl.
  - now exists EmptyString.
  - now exists (String c p).
  - now exists EmptyString.
  - destruct (IH p) as [rest Hrest]. exists rest. now rewrite <- Hrest.
Qed.

Lemma isLF_eq c : isLF c = true -> c = LF.
Proof.
  unfold isLF, code. intros H. apply Nat.eqb_eq in H.
  rewrite <- (ascii_nat_embedding c), H. reflexivity.
Qed.

(** Reading on through text free of double line feeds emits nothing. *)
Lemma split_nl_inside p : forall cur rest,
  (no_double_lf false p = true ->
   split_nl_from Reading cur (p ++ rest)
   = split_nl_from Reading (cur ++ p) rest)
  /\ (no_double_lf true p = true ->
      split_nl_from OneNewline cur (p ++ rest)
      = split_nl_from Reading (cur ++ String LF p) rest).
Proof.
  induction p as [|c p IH]; intros cur rest; simpl.
  - split; [intros _; now rewrite append_nil_r | discriminate].
  - destruct (isLF c) eqn:Hc; simpl.
    + split; [|discriminate]. intros Hp.
      apply isLF_eq in Hc. subst c.
      now apply (proj2 (IH cur rest)).
    + split; intros Hp.
      * rewrite (proj1 (IH (snoc cur c) rest) Hp). now rewrite snoc_append.
      * rewrite (proj1 (IH (snoc (snoc cur LF) c) rest) Hp).
        now rewrite !snoc_append.
Qed.

Lemma split_nl_paragraph st p rest :
  st <> OneNewline -> is_paragraph p = true ->
  split_nl_from st EmptyString (p ++ rest) = split_nl_from Reading p rest.
Proof.
  intros Hst Hp. unfold is_paragraph in Hp.
  destruct p as [|c p]; simpl in *; [discriminate|].
  destruct (isLF c) eqn:Hc; simpl in Hp; [discriminate|].
  destruct st; try congruence;
    now rewrite (proj1 (split_nl_inside p (snoc EmptyString c) rest) Hp).
Qed.

Lemma split_nl_blank_line cur rest :
  split_nl_from Reading cur (blank_line ++ rest)
  = cur :: split_nl_from InSeparator EmptyString rest.
Proof. reflexivity. Qed.

(** Paragraphs joined by blank lines are split back into themselves. *)
Lemma split_nl_join ps : forall st,
  st <> OneNewline -> ps <> [] ->
  Forall (fun p => is_paragraph p = true) ps ->
  split_nl_from st EmptyString (join blank_line ps) = ps.
Proof.
  induction ps as [|p ps IH]; intros st Hst Hne Hps; [congruence|].
  inversion Hps as [|? ? Hp Hps']; subst.
  destruct ps as [|q ps].
  - simpl. rewrite <- (append_nil_r p) at 1.
    now rewrite split_nl_paragraph.
  - change (join blank_line (p :: q :: ps))
      with (p ++ blank_line ++ join blank_line (q :: ps))%string.
    rewrite split_nl_paragraph, split_nl_blank_line by assumption.
    f_equal. apply IH; [discriminate | discriminate | assumption].
Qed.

Lemma split_nl_skip_run n : forall rest,
  split_nl_from InSeparator EmptyString (lf_run n ++ rest)
  = split_nl_from InSeparator EmptyString rest.
Proof. induction n as [|n IH]; intros rest; simpl; auto. Qed.

Lemma split_nl_run cur n rest :
  split_nl_from Reading cur (lf_run (2 + n) ++ rest)
  = cur :: split_nl_from InSeparator EmptyString rest.
Proof. simpl. now rewrite split_nl_skip_run. Qed.

(** A text made of paragraphs separated by runs of two or more line feeds
    is split into these paragraphs. *)
Lemma split_nl_paragraphs_of s ps :
  paragraphs_of s ps ->
  forall st, st <> OneNewline -> split_nl_from st EmptyString s = ps.
Proof.
  induction 1 as [p Hp|p n rest ps Hp Hrest IH]; intros st Hst.
  - rewrite <- (append_nil_r p) at 1. now rewrite split_nl_paragraph.
  - rewrite split_nl_paragraph, split_nl_run by assumption.
    f_equal. apply IH. discriminate.
Qed.

Lemma paragraphs_of_all s ps :
  paragraphs_of s ps -> Forall (fun p => is_paragraph p = true) ps.
Proof. induction 1; repeat constructor; auto. Qed.

Lemma is_paragraph_truthy p : is_paragraph p = true -> truthy p = true.
Proof. destruct p; [discriminate | reflexivity]. Qed.

Lemma paragraphs_join ps :
  ps <> [] -> Forall (fun p => is_paragraph p = true) ps ->
  paragraphs (join blank_line ps) = ps.
Proof.
  intros Hne Hps. unfold paragraphs, split_nl.
  rewrite split_nl_join by (discriminate || assumption).
  apply forallb_filter_id. apply forallb_forall.
  rewrite Forall_forall in Hps. intros p Hp.
  now apply is_paragraph_truthy, Hps.
Qed.

Lemma paragraphs_of_paragraphs s ps :
  paragraphs_of s ps -> paragraphs s = ps.
Proof.
  intros H. unfold paragraphs, split_nl.
  rewrite (split_nl_paragraphs_of s ps H) by discriminate.
  apply forallb_filter_id. apply forallb_forall.
  pose proof (paragraphs_of_all s ps H) as Hall.
  rewrite Forall_forall in Hall. intros p Hp.
  now apply is_paragraph_truthy, Hall.
Qed.

Lemma paragraphs_nonempty text p : In p (paragraphs text) -> p <> EmptyString.
Proof.
  unfold paragraphs. intros H. apply filter_In in H.
  now apply truthy_nonempty.
Qed.

Lemma three_paragraphs date_of meta p0 p1 p2 :
  is_paragraph p0 = true -> is_paragraph p1 = true ->
  is_paragraph p2 = true ->
  let t := {| metadata := meta;
              transcription :=
                Some (p0 ++ blank_line ++ p1 ++ blank_line ++ p2)%string |} in
  let title := or_str (meta_field m_title t) "Untitled" in
  let url := or_str (meta_field m_url t) "" in
  record_chunks date_of t
  = [ {| id := (url ++ "#p0")%string; text := str_slice0 p0 2000;
         title := title; date := date_of t; url := url |};
      {| id := (url ++ "#p1")%string; text := str_slice0 p1 2000;
         title := title; date := date_of t; url := url |};
      {| id := (url ++ "#p2")%string; text := str_slice0 p2 2000;
         title := title; date := date_of t; url := url |} ].
Proof.
  intros H0 H1 H2 t title url. unfold record_chunks.
  assert (Ht : or_str (transcription t) ""
               = join blank_line [p0; p1; p2]).
  { unfold t. simpl transcription. unfold or_str.
    destruct p0; [discriminate | reflexivity]. }
  rewrite Ht, paragraphs_join; [reflexivity | discriminate |].
  repeat constructor; assumption.
Qed.

Lemma record_chunks_text date_of t c :
  In c (record_chunks date_of t) ->
  exists p, In p (paragraphs (or_str (transcription t) ""))
            /\ text c = str_slice0 p 2000.
Proof.
  unfold record_chunks. intros H. apply in_map_iff in H.
  destruct H as [[k p] [<- H]]. apply in_combine_r in H.
  exists p. split; auto.
Qed.

Lemma str_slice0_nonempty p n :
  p <> EmptyString -> str_slice0 p (S n) <> EmptyString.
Proof. destruct p; [congruence | discriminate]. Qed.

Lemma assemble_texts data c :
  In c (assemble data) ->
  text c <> EmptyString /\ String.length (text c) <= 2000.
Proof.
  rewrite assemble_chunks, in_app_iff, !in_concat. intros H.
  assert (Hc : exists date_of t, In c (record_chunks date_of t)).
  { destruct H as [[l [Hl Hin]]|[l [Hl Hin]]];
      apply in_map_iff in Hl; destruct Hl as [t [<- _]]; eauto. }
  destruct Hc as [date_of [t Hc]].
  apply record_chunks_text in Hc. destruct Hc as [p [Hp ->]]. split.
  - apply str_slice0_nonempty. exact (paragraphs_nonempty _ p Hp).
  - rewrite str_slice0_length. lia.
Qed.

(** C6.  Corpus assembly appends, for every record, the chunks of the
    record: its text is split on runs of two or more line feeds, the empty
    pieces are dropped, and the paragraph at index [idx] of what is left
    gives the chunk of id [url ++ "#p" ++ idx] whose text is the first 2000
    characters of the paragraph (the whole of it when it is shorter), with
    the title, date and url of the record; no chunk has an empty text.
    A text made of paragraphs separated by runs of two or more line feeds
    has exactly these paragraphs.  Chunks come in the order of the
    paragraphs, records in the order of the file, [transcriptions] before
    [videos].  Three paragraphs separated by blank lines give exactly three
    chunks, of ids [#p0], [#p1], [#p2]; a paragraph of more than 2000
    characters gives a text of exactly 2000 characters. *)
Theorem corpus_assembly :
  (forall date_of items t,
      add_record date_of items t = items ++ record_chunks date_of t)
  /\ (forall data,
         assemble data
         = List.concat (map (record_chunks transcription_date)
                            (records (transcriptions data)))
           ++ List.concat (map (record_chunks video_date)
                               (records (videos data))))
  /\ (forall date_of t,
         List.length (record_chunks date_of t)
         = List.length (paragraphs (or_str (transcription t) "")))
  /\ (forall date_of t idx p,
         nth_error (paragraphs (or_str (transcription t) "")) idx = Some p ->
         let url := or_str (meta_field m_url t) "" in
         nth_error (record_chunks date_of t) idx
         = Some {| id := (url ++ "#p" ++ decimal idx)%string;
                   text := str_slice0 p 2000;
                   title := or_str (meta_field m_title t) "Untitled";
                   date := date_of t;
                   url := url |})
  /\ (forall text p, In p (paragraphs text) -> p <> EmptyString)
  /\ (forall text ps, paragraphs_of text ps -> paragraphs text = ps)
  /\ (forall data c,
         In c (assemble data) ->
         text c <> EmptyString /\ String.length (text c) <= 2000)
  /\ (forall p,
         String.length (str_slice0 p 2000) <= 2000
         /\ (exists rest, p = (str_slice0 p 2000 ++ rest)%string)
         /\ (String.length p <= 2000 -> str_slice0 p 2000 = p)
         /\ (2000 < String.length p ->
             String.length (str_slice0 p 2000) = 2000))
  /\ (forall date_of meta p0 p1 p2,
         is_paragraph p0 = true -> is_paragraph p1 = true ->
         is_paragraph p2 = true ->
         let t := {| metadata := meta;
                     transcription :=
                       Some (p0 ++ blank_line ++ p1 ++ blank_line ++ p2)%string
                  |} in
         let title := or_str (meta_field m_title t) "Untitled" in
         let url := or_str (meta_field m_url t) "" in
         record_chunks date_of t
         = [ {| id := (url ++ "#p0")%string; text := str_slice0 p0 2000;
                title := title; date := date_of t; url := url |};
             {| id := (url ++ "#p1")%string; text := str_slice0 p1 2000;
                title := title; date := date_of t; url := url |};
             {| id := (url ++ "#p2")%string; text := str_slice0 p2 2000;
                title := title; date := date_of t; url := url |} ]).
Proof.
  split; [exact add_record_chunks|].
  split; [exact assemble_chunks|].
  split; [exact record_chunks_length|].
  split; [intros; now apply record_chunks_nth|].
  split; [exact paragraphs_nonempty|].
  split; [exact paragraphs_of_paragraphs|].
  split; [exact assemble_texts|].
  split; [|exact three_paragraphs].
  intros p. pose proof (str_slice0_length 2000 p) as Hl.
  split; [lia|]. split; [apply str_slice0_prefix|]. split; [|lia].
  intros Hle. destruct (str_slice0_prefix 2000 p) as [rest Hrest].
  assert (Hr : String.length rest = 0).
  { apply (f_equal String.length) in Hrest.
    assert (Happ : forall a b, String.length (a ++ b)
                               = String.length a + String.length b).
    { intros a b. induction a as [|x a IH]; simpl; auto. }
    rewrite Happ in Hrest. lia. }
  destruct rest; [|discriminate]. now rewrite append_nil_r in Hrest.
Qed.

(** A record of three one-word paragraphs separated by blank lines. *)
Lemma corpus_assembly_witness :
  (is_paragraph "one" = true /\ is_paragraph "two" = true
   /\ is_paragraph "three" = true)
  /\ map id
       (record_chunks transcription_date
          {| metadata :=
               Some {| m_title := Some "Daily"; record_date := None;
                       estimated_date := Some "2025-01-01";
                       m_url := Some "https://example.org/a" |};
             transcription :=
               Some ("one" ++ blank_line ++ "two" ++ blank_line ++ "three")%string
          |})
     = ["https://example.org/a#p0"; "https://example.org/a#p1";
        "https://example.org/a#p2"].
Proof.
  split; [repeat split|].
  rewrite (proj2 (proj2 (proj2 (proj2 (proj2 (proj2 (proj2
             (proj2 corpus_assembly)))))))
             transcription_date
             (Some {| m_title := Some "Daily"; record_date := None;
                      estimated_date := Some "2025-01-01";
                      m_url := Some "https://example.org/a" |})
             "one" "two" "three" eq_refl eq_refl eq_refl).
  reflexivity.
Defined.

(* ------------------------------------------------------------------ *)
(** ** Corpus loader *)






Section LoaderFacts.

Variable json_value : string -> JsError + Data.
Variable fetch : string -> FetchOutcome.





Lemma fallback_loop_success paths : forall lastErr data,
  fallback_loop json_value fetch lastErr paths = inr data
  <-> exists before p after,
        paths = before ++ p :: after
        /\ Forall (fails json_value fetch) before
        /\ try_candidate json_value fetch p = inr data.
Proof.
  induction paths as [|q paths IH]; intros lastErr data; simpl.
  - split; [discriminate|].
    intros [before [p [after [E _]]]]. now destruct before.
  - destruct (try_candidate json_value fetch q) as [e|d] eqn:Hq.
    + rewrite IH. split.
      * intros [before [p [after [E [Hb Hp]]]]].
        exists (q :: before), p, after. subst. repeat split; auto.
        constructor; auto. now exists e.
      * intros [before [p [after [E [Hb Hp]]]]].
        destruct before as [|b before]; simpl in E; inversion E; subst.
        -- congruence.
        -- inversion Hb; subst. now exists before, p, after.
    + split.
      * intros H. inversion H; subst. exists [], q, paths. auto.
      * intros [before [p [after [E [Hb Hp]]]]].
        destruct before as [|b before]; simpl in E; inversion E; subst.
        -- congruence.
        -- inversion Hb as [|? ? [e He] _]; subst. congruence.
Qed.


End LoaderFacts.




(* ------------------------------------------------------------------ *)
(** ** The submit handler *)

Lemma submit_blank value useLlm endpoint st :
  truthy (trim value) = false -> submit value useLlm endpoint st = st.
Proof. intros H. unfold submit. now rewrite H. Qed.

Lemma submit_not_ready value useLlm endpoint st :
  index st = None -> truthy (trim value) = true ->
  submit value useLlm endpoint st
  = {| docs := docs st; index := None;
       chat := chat st
               ++ [ {| role := user; msg_body := Said (trim value);
                       msg_meta := None |};
                    {| role := bot; msg_body := IndexNotBuilt;
                       msg_meta := None |} ];
       in_flight := in_flight st;
       score_calls := score_calls st |}.
Proof.
  intros Hi Hq. unfold submit. rewrite Hq. simpl. rewrite Hi.
  unfold addMsg. simpl. rewrite Hi, <- app_assoc. reflexivity.
Qed.

Lemma submit_calls value useLlm endpoint st :
  score_calls (submit value useLlm endpoint st) = score_calls st
  \/ exists idx,
       index st = Some idx
       /\ score_calls (submit value useLlm endpoint st)
          = score_calls st ++ [(trim value, idx, 8%Z)].
Proof.
  unfold submit. destruct (negb (truthy (trim value))); auto. simpl.
  destruct (index st) as [idx|]; auto.
  right. exists idx. split; auto.
  destruct (score (trim value) idx 8); auto.
  destruct useLlm; auto.
  destruct (negb (truthy (trim endpoint))); auto.
Qed.

Lemma submit_keeps value useLlm endpoint st :
  docs (submit value useLlm endpoint st) = docs st
  /\ index (submit value useLlm endpoint st) = index st.
Proof.
  unfold submit. destruct (negb (truthy (trim value))); auto. simpl.
  destruct (index st) as [idx|] eqn:Hi; simpl; auto.
  destruct (score (trim value) idx 8); auto.
  destruct useLlm; auto.
  destruct (negb (truthy (trim endpoint))); auto.
Qed.

Lemma relay_settled_keeps k reply st :
  docs (relay_settled k reply st) = docs st
  /\ index (relay_settled k reply st) = index st
  /\ score_calls (relay_settled k reply st) = score_calls st.
Proof.
  unfold relay_settled. destruct (nth_error (in_flight st) k); auto.
  destruct (callRelay reply); auto.
Qed.

Lemma loadData_built json_value fetch st :
  index_built st -> index_built (loadData json_value fetch st).
Proof.
  intros H. unfold loadData.
  destruct (fetchJsonWithFallback json_value fetch candidates) as [e|data].
  - exact H.
  - right. exists data. split; reflexivity.
Qed.

Lemma loadData_calls json_value fetch st :
  score_calls (loadData json_value fetch st) = score_calls st.
Proof.
  unfold loadData.
  now destruct (fetchJsonWithFallback json_value fetch candidates).
Qed.

Lemma handle_invariant json_value st ev :
  index_built st /\ calls_on_built_index st ->
  index_built (handle json_value st ev)
  /\ calls_on_built_index (handle json_value st ev).
Proof.
  intros [Hb Hc]. destruct ev as [fetch|value useLlm endpoint|k reply]; simpl.
  - split; [now apply loadData_built|].
    unfold calls_on_built_index. now rewrite loadData_calls.
  - destruct (submit_keeps value useLlm endpoint st) as [Hd Hi].
    split.
    + unfold index_built. rewrite Hd, Hi. exact Hb.
    + unfold calls_on_built_index.
      destruct (submit_calls value useLlm endpoint st)
        as [E|[idx [Hidx E]]]; rewrite E; auto.
      apply Forall_app. split; auto. constructor; auto. simpl.
      split; auto. destruct Hb as [Hn|[data [Hd' Hi']]]; [congruence|].
      exists data. rewrite Hi' in Hidx. inversion Hidx. now rewrite Hd'.
  - destruct (relay_settled_keeps k reply st) as [Hd [Hi Hs]].
    split.
    + unfold index_built. rewrite Hd, Hi. exact Hb.
    + unfold calls_on_built_index. now rewrite Hs.
Qed.

Lemma run_invariant json_value evs : forall st,
  index_built st /\ calls_on_built_index st ->
  index_built (fold_left (handle json_value) evs st)
  /\ calls_on_built_index (fold_left (handle json_value) evs st).
Proof.
  induction evs as [|ev evs IH]; intros st H; simpl; auto.
  apply IH. now apply handle_invariant.
Qed.

Lemma run_not_loaded json_value evs : forall st,
  Forall not_loaded evs -> index st = None ->
  index (fold_left (handle json_value) evs st) = None
  /\ score_calls (fold_left (handle json_value) evs st) = score_calls st.
Proof.
  induction evs as [|ev evs IH]; intros st Hev Hi; simpl; auto.
  inversion Hev as [|? ? Hn Hev']; subst.
  destruct ev as [fetch|value useLlm endpoint|k reply]; simpl in *.
  - contradiction.
  - destruct (submit_keeps value useLlm endpoint st) as [_ Hi'].
    destruct (IH (submit value useLlm endpoint st) Hev') as [H1 H2];
      [congruence|].
    split; auto. rewrite H2.
    destruct (submit_calls value useLlm endpoint st)
      as [E|[idx [Hidx _]]]; congruence.
  - destruct (relay_settled_keeps k reply st) as [_ [Hi' Hs]].
    destruct (IH (relay_settled k reply st) Hev') as [H1 H2];
      [congruence|].
    split; auto. congruence.
Qed.

(** C9.  A query submitted while the index is not built gets the echo of
    the query and the "index not built" message, and nothing else changes:
    no call of [score] is made and nothing of the query is kept.  (An input
    that is blank once trimmed is no query: the handler returns at line 149
    and the state is unchanged.)  In every
    session, as long as no load has settled the index is not built and
    [score] has not been called; every call of [score] ever made was on
    the index that [buildIndex] made of an assembled corpus; and a load
    that settles later runs no query of its own. *)
Theorem not_ready_without_scoring :
  (forall value useLlm endpoint st,
      index st = None -> truthy (trim value) = true ->
      submit value useLlm endpoint st
      = {| docs := docs st; index := None;
           chat := chat st
                   ++ [ {| role := user; msg_body := Said (trim value);
                           msg_meta := None |};
                        {| role := bot; msg_body := IndexNotBuilt;
                           msg_meta := None |} ];
           in_flight := in_flight st;
           score_calls := score_calls st |})
  /\ (forall value useLlm endpoint st,
         truthy (trim value) = false ->
         submit value useLlm endpoint st = st)
  /\ (forall value useLlm endpoint st,
         index st = None ->
         score_calls (submit value useLlm endpoint st) = score_calls st)
  /\ (forall json_value evs,
         Forall not_loaded evs ->
         index (run json_value evs) = None
         /\ score_calls (run json_value evs) = [])
  /\ (forall json_value evs,
         index_built (run json_value evs)
         /\ calls_on_built_index (run json_value evs))
  /\ (forall json_value fetch st,
         score_calls (loadData json_value fetch st) = score_calls st).
Proof.
  split; [exact submit_not_ready|]. split; [exact submit_blank|].
  split; [|split].
  - intros value useLlm endpoint st Hi.
    destruct (submit_calls value useLlm endpoint st)
      as [E|[idx [Hidx _]]]; congruence.
  - intros json_value evs Hev.
    now apply (run_not_loaded json_value evs initial).
  - split; [|exact loadData_calls].
    intros json_value evs. apply run_invariant. split.
    + now left.
    + constructor.
Qed.

(** The query "dog" submitted on the freshly opened page. *)
Lemma not_ready_without_scoring_witness :
  (index initial = None /\ truthy (trim " dog ") = true)
  /\ submit " dog " false "" initial
     = {| docs := []; index := None;
          chat := [ {| role := user; msg_body := Said "dog";
                       msg_meta := None |};
                    {| role := bot; msg_body := IndexNotBuilt;
                       msg_meta := None |} ];
          in_flight := []; score_calls := [] |}.
Proof.
  split; [split; reflexivity|].
  exact (proj1 not_ready_without_scoring " dog " false "" initial
           eq_refl eq_refl).
Defined.

(* ================================================================== *)
(** * Further properties *)

(* ------------------------------------------------------------------ *)
(** ** Index builder: missing terms, composition, tables *)

Lemma filter_length_zero {A : Type} (p : A -> bool) l :
  List.length (filter p l) = 0 <-> forall a, In a l -> p a = false.
Proof.
  induction l as [|x l IH]; simpl.
  - split; [intros _ a [] | reflexivity].
  - destruct (p x) eqn:E; simpl.
    + split; [discriminate|]. intros H. specialize (H x (or_introl eq_refl)).
      congruence.
    + rewrite IH. split.
      * intros H a [<-|Ha]; auto.
      * intros H a Ha. apply H. now right.
Qed.

Lemma occurs_in_counts t tokens :
  occurs_in t (count_tokens tokens []) = true <-> In t tokens.
Proof.
  unfold occurs_in. rewrite counts_get, Nat.ltb_lt.
  symmetry. apply count_occ_In.
Qed.

Lemma df_zero_iff items t :
  documentFrequency (buildIndex items) t = 0
  <-> forall it, In it items -> ~ In t (tokenize (text it)).
Proof.
  unfold documentFrequency. rewrite buildIndex_df, buildIndex_tf.
  rewrite filter_length_zero. split.
  - intros H it Hit Hin.
    specialize (H _ (in_map _ _ _ Hit)).
    apply occurs_in_counts in Hin. congruence.
  - intros H m Hm. apply in_map_iff in Hm. destruct Hm as [it [<- Hit]].
    destruct (occurs_in t (count_tokens (tokenize (text it)) [])) eqn:E;
      auto.
    apply occurs_in_counts in E. now apply H in E.
Qed.

Lemma df_positive_of_occurrence items it t :
  In it items -> In t (tokenize (text it)) ->
  1 <= documentFrequency (buildIndex items) t.
Proof.
  intros Hit Hin.
  destruct (Nat.eq_dec (documentFrequency (buildIndex items) t) 0)
    as [E|E]; [|lia].
  exfalso. exact (proj1 (df_zero_iff items t) E it Hit Hin).
Qed.

(** X4.  In an index built by [buildIndex], a term has document frequency 0
    exactly when it is a token of no chunk, and then its term frequency is 0
    in every chunk; a term that is a token of some chunk has a document
    frequency of at least 1. *)
Theorem unknown_term_iff_in_no_chunk items t :
  (documentFrequency (buildIndex items) t = 0
   <-> forall it, In it items -> ~ In t (tokenize (text it)))
  /\ (documentFrequency (buildIndex items) t = 0 ->
      forall i, termFrequency (buildIndex items) i t = 0)
  /\ (forall it, In it items -> In t (tokenize (text it)) ->
                 1 <= documentFrequency (buildIndex items) t).
Proof.
  split; [apply df_zero_iff|]. split.
  - intros Hdf i. unfold termFrequency. rewrite buildIndex_tf, nth_error_map.
    destruct (nth_error items i) as [it|] eqn:Hi; simpl; auto.
    rewrite counts_get. apply count_occ_not_In.
    apply (proj1 (df_zero_iff items t) Hdf it). now apply nth_error_In in Hi.
  - intros it. apply df_positive_of_occurrence.
Qed.

Lemma unknown_term_iff_in_no_chunk_witness :
  documentFrequency (buildIndex cat_dog) "bird" = 0
  /\ forall i, termFrequency (buildIndex cat_dog) i "bird" = 0.
Proof.
  split; [reflexivity|].
  exact (proj1 (proj2 (unknown_term_iff_in_no_chunk cat_dog "bird")) eq_refl).
Defined.

(** X5.  Indexing two corpora put end to end: the tables of the chunks are
    those of the first corpus followed by those of the second, the document
    frequency of every term is the sum of its two document frequencies, and
    the sizes add up. *)
Theorem buildIndex_app items1 items2 :
  tf (buildIndex (items1 ++ items2))
  = tf (buildIndex items1) ++ tf (buildIndex items2)
  /\ (forall t,
         documentFrequency (buildIndex (items1 ++ items2)) t
         = documentFrequency (buildIndex items1) t
           + documentFrequency (buildIndex items2) t)
  /\ N (buildIndex (items1 ++ items2))
     = N (buildIndex items1) + N (buildIndex items2).
Proof.
  split; [|split].
  - rewrite !buildIndex_tf. apply map_app.
  - intros t. unfold documentFrequency.
    rewrite !buildIndex_df, !buildIndex_tf, map_app, filter_app.
    apply length_app.
  - simpl. apply length_app.
Qed.

Lemma positive_counts_set m k v :
  positive_counts m -> 1 <= v -> positive_counts (map_set m k v).
Proof.
  unfold positive_counts. intros Hm Hv.
  induction m as [|[k0 v0] m IH]; simpl.
  - repeat constructor. exact Hv.
  - inversion Hm as [|? ? H0 Hm']; subst.
    destruct (String.eqb k0 k); constructor; auto.
Qed.

Lemma count_tokens_positive tokens : forall counts,
  positive_counts counts -> positive_counts (count_tokens tokens counts).
Proof.
  unfold count_tokens.
  induction tokens as [|a tokens IH]; intros counts H; simpl; auto.
  apply IH. apply positive_counts_set; auto. lia.
Qed.

Lemma bump_df_positive terms : forall df,
  positive_counts df -> positive_counts (bump_df df terms).
Proof.
  unfold bump_df.
  induction terms as [|a terms IH]; intros df H; simpl; auto.
  apply IH. apply positive_counts_set; auto. lia.
Qed.

Lemma bump_df_NoDup terms : forall df,
  NoDup (map_keys df) -> NoDup (map_keys (bump_df df terms)).
Proof.
  unfold bump_df.
  induction terms as [|a terms IH]; intros df H; simpl; auto.
  apply IH. now apply map_keys_set_NoDup.
Qed.

Lemma index_fold_df_invariant items : forall st,
  NoDup (map_keys (fst st)) /\ positive_counts (fst st) ->
  NoDup (map_keys (fst (fold_left index_step items st)))
  /\ positive_counts (fst (fold_left index_step items st)).
Proof.
  induction items as [|it items IH]; intros st [Hn Hp]; simpl; auto.
  apply IH. simpl. split.
  - now apply bump_df_NoDup.
  - now apply bump_df_positive.
Qed.

(** X6.  The tables of an index built by [buildIndex] hold each key once and
    no zero count: there is one table per chunk, an entry [(t, n)] of the
    table of chunk [i] has [n >= 1] and [n] is the term frequency of [t]
    in chunk [i], and an entry [(t, n)] of the document-frequency table has
    [1 <= n <= N] and [n] is the document frequency of [t]. *)
Theorem buildIndex_tables items :
  List.length (tf (buildIndex items)) = List.length items
  /\ N (buildIndex items) = List.length items
  /\ NoDup (map_keys (df (buildIndex items)))
  /\ (forall t n,
         In (t, n) (df (buildIndex items)) ->
         n = documentFrequency (buildIndex items) t
         /\ 1 <= n <= N (buildIndex items))
  /\ (forall i counts,
         nth_error (tf (buildIndex items)) i = Some counts ->
         NoDup (map_keys counts)
         /\ forall t n,
              In (t, n) counts ->
              n = termFrequency (buildIndex items) i t /\ 1 <= n).
Proof.
  destruct (index_fold_df_invariant items ([], [])) as [Hn Hp].
  { split; constructor. }
  split; [rewrite buildIndex_tf; apply length_map|].
  split; [reflexivity|]. split; [exact Hn|]. split.
  - intros t n Hin.
    assert (Hget : map_get (df (buildIndex items)) t = Some n)
      by (apply map_get_In; assumption).
    assert (E : n = documentFrequency (buildIndex items) t)
      by (unfold documentFrequency; now rewrite Hget).
    split; [exact E|]. split.
    + unfold positive_counts in Hp. rewrite Forall_forall in Hp.
      exact (Hp (t, n) Hin).
    + rewrite E. apply buildIndex_df_le_N.
  - intros i counts Hi.
    assert (Hc : exists it, counts = count_tokens (tokenize (text it)) []).
    { rewrite buildIndex_tf, nth_error_map in Hi.
      destruct (nth_error items i) as [it|]; [|discriminate].
      inversion Hi. now exists it. }
    destruct Hc as [it ->].
    split; [apply counts_NoDup|]. intros t n Hin.
    assert (Hget : map_get (count_tokens (tokenize (text it)) []) t = Some n)
      by (apply map_get_In; [apply counts_NoDup | assumption]).
    split.
    + unfold termFrequency. rewrite Hi. now rewrite Hget.
    + assert (Hp' : positive_counts (count_tokens (tokenize (text it)) []))
        by (apply count_tokens_positive; constructor).
      unfold positive_counts in Hp'. rewrite Forall_forall in Hp'.
      exact (Hp' (t, n) Hin).
Qed.

Lemma table_total_set m k :
  table_total (map_set m k (or0 (map_get m k) + 1)) = table_total m + 1.
Proof.
  unfold table_total. induction m as [|[k0 v0] m IH]; simpl.
  - reflexivity.
  - destruct (String.eqb k0 k); simpl; lia.
Qed.

Lemma count_tokens_total tokens : forall counts,
  table_total (count_tokens tokens counts)
  = table_total counts + List.length tokens.
Proof.
  unfold count_tokens.
  induction tokens as [|a tokens IH]; intros counts; simpl.
  - lia.
  - rewrite IH, table_total_set. lia.
Qed.

(** X7.  The counts of the table of a chunk add up to the number of tokens
    of its text, and the counts of the document-frequency table add up to
    the number of entries of all the chunk tables together. *)
Theorem buildIndex_totals items :
  (forall i it,
      nth_error items i = Some it ->
      exists counts,
        nth_error (tf (buildIndex items)) i = Some counts
        /\ table_total counts = List.length (tokenize (text it)))
  /\ table_total (df (buildIndex items))
     = list_sum (map (fun counts : JsMap nat => List.length counts)
                     (tf (buildIndex items))).
Proof.
  split.
  - intros i it Hi. exists (count_tokens (tokenize (text it)) []).
    split.
    + now rewrite buildIndex_tf, nth_error_map, Hi.
    + now rewrite count_tokens_total.
  - rewrite buildIndex_tf. unfold buildIndex. simpl.
    assert (H : forall its st,
               table_total (fst (fold_left index_step its st))
               = table_total (fst st)
                 + list_sum (map (fun counts : JsMap nat => List.length counts)
                               (map (fun it => count_tokens (tokenize (text it)) [])
                                    its))).
    { induction its as [|it its IH]; intros st; simpl; [lia|].
      rewrite IH. simpl.
      assert (Hb : forall terms df,
                 table_total (bump_df df terms)
                 = table_total df + List.length terms).
      { unfold bump_df. induction terms as [|a terms IHt]; intros df0; simpl.
        - lia.
        - rewrite IHt, table_total_set. lia. }
      rewrite Hb. unfold map_keys. rewrite length_map. lia. }
    rewrite H. reflexivity.
Qed.

Lemma buildIndex_totals_witness :
  nth_error cat_dog 1 = Some (chunk_of_text "dog dog")
  /\ exists counts,
       nth_error (tf (buildIndex cat_dog)) 1 = Some counts
       /\ table_total counts
          = List.length (tokenize (text (chunk_of_text "dog dog"))).
Proof.
  split; [reflexivity|].
  exact (proj1 (buildIndex_totals cat_dog) 1 (chunk_of_text "dog dog")
           eq_refl).
Defined.

(* ------------------------------------------------------------------ *)
(** ** Scorer: zero scores, dominance, the best results *)

Lemma sum_over_positive {A : Type} (f : A -> R) l :
  (forall a, In a l -> (0 <= f a)%R) ->
  (exists a, In a l /\ (0 < f a)%R) ->
  (0 < sum_over l f)%R.
Proof.
  unfold sum_over, Rsum.
  induction l as [|x l IH]; intros Hall [a [Ha Hpos]]; simpl.
  - destruct Ha.
  - assert (Hl : (0 <= fold_right Rplus 0 (map f l))%R).
    { apply (sum_over_nonneg f l). intros b Hb. apply Hall. now right. }
    destruct Ha as [<-|Ha].
    + lra.
    + assert (0 <= f x)%R by (apply Hall; now left).
      assert (0 < fold_right Rplus 0 (map f l))%R.
      { apply IH; [intros b Hb; apply Hall; now right | now exists a]. }
      lra.
Qed.

Lemma sum_over_zero {A : Type} (f : A -> R) l :
  (forall a, In a l -> f a = 0%R) -> sum_over l f = 0%R.
Proof.
  unfold sum_over, Rsum. induction l as [|x l IH]; intros H; simpl; auto.
  rewrite (H x) by now left. rewrite IH; [lra|].
  intros a Ha. apply H. now right.
Qed.

Lemma sum_over_lt {A : Type} (f g : A -> R) l :
  (forall a, In a l -> (f a <= g a)%R) ->
  (exists a, In a l /\ (f a < g a)%R) ->
  (sum_over l f < sum_over l g)%R.
Proof.
  unfold sum_over, Rsum.
  induction l as [|x l IH]; intros Hall [a [Ha Hlt]]; simpl.
  - destruct Ha.
  - assert (Hle : (fold_right Rplus 0 (map f l)
                   <= fold_right Rplus 0 (map g l))%R).
    { clear IH Ha Hlt. induction l as [|y l IHl]; simpl; [lra|].
      assert (f y <= g y)%R by (apply Hall; right; now left).
      assert (fold_right Rplus 0 (map f l)
              <= fold_right Rplus 0 (map g l))%R.
      { apply IHl. intros b [<-|Hb]; apply Hall; [now left | right; now right]. }
      lra. }
    assert (Hx : (f x <= g x)%R) by (apply Hall; now left).
    destruct Ha as [<-|Ha].
    + lra.
    + assert (fold_right Rplus 0 (map f l)
              < fold_right Rplus 0 (map g l))%R.
      { apply IH; [intros b Hb; apply Hall; now right | now exists a]. }
      lra.
Qed.

Lemma contribution_positive items i qtf t :
  documentFrequency (buildIndex items) t <> 0 -> 0 < qtf ->
  (0 < contribution (buildIndex items) i qtf t)%R.
Proof.
  intros Hdf Hq. rewrite contribution_formula by assumption.
  pose proof (idf_positive (buildIndex items) t (buildIndex_df_le_N items t))
    as Hidf. unfold idf in Hidf.
  pose proof (damped_frequency_ge_1 (termFrequency (buildIndex items) i t)).
  apply lt_INR in Hq. simpl in Hq.
  apply Rmult_lt_0_compat; [apply Rmult_lt_0_compat|]; lra.
Qed.

Lemma query_count_positive tokens t :
  In t (nodup string_dec tokens) -> 0 < count_occ string_dec tokens t.
Proof. intros H. apply nodup_In in H. now apply count_occ_In. Qed.

Lemma tfidf_zero_iff items i tokens :
  tfidf (buildIndex items) i tokens = 0%R
  <-> forall t, In t tokens -> documentFrequency (buildIndex items) t = 0.
Proof.
  unfold tfidf. split.
  - intros Hz t Ht.
    destruct (Nat.eq_dec (documentFrequency (buildIndex items) t) 0)
      as [E|E]; auto.
    exfalso.
    assert (0 < sum_over (nodup string_dec tokens)
                  (fun t => contribution (buildIndex items) i
                              (count_occ string_dec tokens t) t))%R.
    { apply sum_over_positive.
      - intros a _. apply contribution_nonneg, buildIndex_df_le_N.
      - exists t. split; [now apply nodup_In|].
        apply contribution_positive; auto. now apply count_occ_In. }
    lra.
  - intros H. apply sum_over_zero. intros t Ht.
    apply contribution_unknown, H. now apply nodup_In in Ht.
Qed.

Lemma chunk_score_built query items i :
  i < List.length items ->
  chunk_score (count_tokens (tokenize query) []) (buildIndex items) i
  = Some (tfidf (buildIndex items) i (tokenize query)).
Proof.
  intros Hi. apply chunk_score_tfidf.
  rewrite buildIndex_tf, length_map. exact Hi.
Qed.

(** X8.  In an index built by [buildIndex], the score of a chunk is 0
    exactly when no term of the query occurs anywhere in the corpus, and is
    strictly positive otherwise: whether the chunk itself holds a query
    term does not decide it. *)
Theorem score_zero_iff_all_terms_unknown query items i :
  i < List.length items ->
  exists s,
    chunk_score (count_tokens (tokenize query) []) (buildIndex items) i
    = Some s
    /\ (s = 0%R
        <-> forall t, In t (tokenize query) ->
                      documentFrequency (buildIndex items) t = 0)
    /\ ((exists t, In t (tokenize query)
                   /\ documentFrequency (buildIndex items) t <> 0) ->
        (0 < s)%R).
Proof.
  intros Hi. exists (tfidf (buildIndex items) i (tokenize query)).
  split; [now apply chunk_score_built|].
  split; [apply tfidf_zero_iff|].
  intros [t [Ht Hdf]].
  pose proof (tfidf_nonneg items i (tokenize query)) as Hge.
  destruct (Req_dec (tfidf (buildIndex items) i (tokenize query)) 0)
    as [E|E]; [|lra].
  exfalso. apply Hdf. exact (proj1 (tfidf_zero_iff _ _ _) E t Ht).
Qed.

Lemma score_zero_iff_all_terms_unknown_witness :
  1 < List.length cat_dog
  /\ exists s,
       chunk_score (count_tokens (tokenize "cat bird") []) (buildIndex cat_dog) 1
       = Some s
       /\ (0 < s)%R.
Proof.
  split; [simpl; lia|].
  destruct (score_zero_iff_all_terms_unknown "cat bird" cat_dog 1)
    as [s [Hs [_ Hpos]]]; [simpl; lia|].
  exists s. split; [exact Hs|]. apply Hpos.
  exists "cat". split; [left; reflexivity | discriminate].
Defined.

Lemma termFrequency_occurrence items i t :
  0 < termFrequency (buildIndex items) i t ->
  documentFrequency (buildIndex items) t <> 0.
Proof.
  unfold termFrequency. rewrite buildIndex_tf, nth_error_map.
  destruct (nth_error items i) as [it|] eqn:Hi; simpl; [|lia].
  rewrite counts_get. intros Hpos. apply count_occ_In in Hpos.
  apply nth_error_In in Hi.
  pose proof (df_positive_of_occurrence items it t Hi Hpos). lia.
Qed.

Lemma tfidf_dominance items tokens i j :
  (forall t, In t tokens ->
             termFrequency (buildIndex items) i t
             <= termFrequency (buildIndex items) j t) ->
  (exists t, In t tokens
             /\ termFrequency (buildIndex items) i t
                < termFrequency (buildIndex items) j t) ->
  (tfidf (buildIndex items) i tokens < tfidf (buildIndex items) j tokens)%R.
Proof.
  intros Hle [t [Ht Hlt]]. unfold tfidf. apply sum_over_lt.
  - intros a Ha. apply contribution_monotone, Hle. now apply nodup_In in Ha.
  - exists t. split; [now apply nodup_In|].
    apply contribution_strict; auto.
    + apply (termFrequency_occurrence items j). lia.
    + now apply count_occ_In.
Qed.

(** In an array in ranking order, an entry that ranks before another one
    stands before it. *)
Lemma ranked_positions l : forall a b,
  StronglySorted ranks_before l -> In a l -> In b l -> ranks_before a b ->
  exists l1 l2 l3, l = l1 ++ a :: l2 ++ b :: l3.
Proof.
  induction l as [|x l IH]; intros a b Hs Ha Hb Hab; [destruct Ha|].
  inversion Hs as [|? ? Hs' Hx]; subst. rewrite Forall_forall in Hx.
  destruct Ha as [<-|Ha].
  - destruct Hb as [<-|Hb].
    + exfalso. now apply (ranks_before_asym x x).
    + apply in_split in Hb. destruct Hb as [l2 [l3 ->]].
      now exists [], l2, l3.
  - destruct Hb as [<-|Hb].
    + exfalso. apply (ranks_before_asym a x); auto.
    + destruct (IH a b Hs' Ha Hb Hab) as [l1 [l2 [l3 ->]]].
      now exists (x :: l1), l2, l3.
Qed.

Lemma firstn_reaches {A : Type} (k : nat) (p q : list A) (b : A) :
  ~ In b p -> In b (firstn k (p ++ b :: q)) ->
  firstn k (p ++ b :: q) = p ++ b :: firstn (k - S (List.length p)) q.
Proof.
  intros Hnp Hin. rewrite firstn_app in *.
  destruct (Nat.le_gt_cases k (List.length p)) as [Hle|Hgt].
  - exfalso. replace (k - List.length p) with 0 in Hin by lia.
    simpl in Hin. rewrite app_nil_r in Hin. apply Hnp.
    now apply firstn_In in Hin.
  - rewrite firstn_all2 by lia.
    replace (k - List.length p) with (S (k - S (List.length p))) by lia.
    reflexivity.
Qed.

Lemma NoDup_fst {A B : Type} (l : list (A * B)) :
  NoDup (map fst l) -> NoDup l.
Proof.
  induction l as [|x l IH]; simpl; intros H; constructor;
    inversion H; subst; auto.
  intros Hin. apply H2. now apply in_map.
Qed.

(** The array sorted by [score] on an index built by [buildIndex]. *)
Lemma sorted_scores_built query items :
  let all := map (fun i => (i, tfidf (buildIndex items) i (tokenize query)))
                 (seq 0 (List.length items)) in
  let sorted := Array_sort by_score_desc all in
  Permutation sorted all
  /\ StronglySorted ranks_before sorted
  /\ NoDup (map fst sorted)
  /\ forall topK, ranking query (buildIndex items) topK
                  = Some (slice0 sorted topK).
Proof.
  intros all sorted.
  assert (Hf : map fst all = seq 0 (List.length items)).
  { unfold all. rewrite map_map. simpl. apply map_id. }
  assert (HP : Permutation sorted all) by apply Array_sort_Permutation.
  split; [exact HP|]. split.
  - apply Array_sort_ranked. rewrite Hf. apply seq_StronglySorted.
  - split.
    + apply (Permutation_NoDup (l := map fst all)).
      * apply Permutation_map. now symmetry.
      * rewrite Hf. apply seq_NoDup.
    + intros topK.
      now rewrite ranking_well_formed by apply buildIndex_well_formed.
Qed.

Lemma sum_over_le {A : Type} (f g : A -> R) l :
  (forall a, In a l -> (f a <= g a)%R) ->
  (sum_over l f <= sum_over l g)%R.
Proof.
  unfold sum_over, Rsum.
  induction l as [|x l IH]; intros Hall; simpl; [lra|].
  assert (f x <= g x)%R by (apply Hall; now left).
  assert (fold_right Rplus 0 (map f l) <= fold_right Rplus 0 (map g l))%R
    by (apply IH; intros a Ha; apply Hall; now right).
  lra.
Qed.

Lemma tfidf_monotone items tokens i j :
  (forall t, In t tokens ->
             termFrequency (buildIndex items) i t
             <= termFrequency (buildIndex items) j t) ->
  (tfidf (buildIndex items) i tokens <= tfidf (buildIndex items) j tokens)%R.
Proof.
  intros Hle. unfold tfidf. apply sum_over_le.
  intros a Ha. apply contribution_monotone, Hle. now apply nodup_In in Ha.
Qed.

(** X9.  In an index built by [buildIndex], if chunk [j] stands before
    chunk [i] in the corpus and every query term is at least as frequent in
    chunk [j] as in chunk [i], then chunk [j] scores at least as high as
    chunk [i]; and whenever chunk [i] is among the results, chunk [j] is
    too, at an earlier place. *)
Theorem earlier_dominating_chunk_ranks_first query items i j :
  j < i -> i < List.length items ->
  (forall t, In t (tokenize query) ->
             termFrequency (buildIndex items) i t
             <= termFrequency (buildIndex items) j t) ->
  exists si sj,
    chunk_score (count_tokens (tokenize query) []) (buildIndex items) i
    = Some si
    /\ chunk_score (count_tokens (tokenize query) []) (buildIndex items) j
       = Some sj
    /\ (si <= sj)%R
    /\ forall topK r,
         ranking query (buildIndex items) topK = Some r ->
         In i (map fst r) ->
         exists l1 l2 l3, r = l1 ++ (j, sj) :: l2 ++ (i, si) :: l3.
Proof.
  intros Hji Hi Hle.
  assert (Hj : j < List.length items) by lia.
  set (idx := buildIndex items).
  set (toks := tokenize query).
  exists (tfidf idx i toks), (tfidf idx j toks).
  assert (Hs : (tfidf idx i toks <= tfidf idx j toks)%R)
    by now apply tfidf_monotone.
  split; [now apply chunk_score_built|].
  split; [now apply chunk_score_built|].
  split; [exact Hs|].
  intros topK r Hr Hin.
  destruct (sorted_scores_built query items) as [HP [Hsorted [Hnd Hrank]]].
  fold idx toks in HP, Hsorted, Hnd, Hrank.
  set (all := map (fun i => (i, tfidf idx i toks))
                  (seq 0 (List.length items))) in *.
  set (sorted := Array_sort by_score_desc all) in *.
  rewrite Hrank in Hr. injection Hr as <-.
  assert (Hall : forall k, k < List.length items ->
                           In (k, tfidf idx k toks) sorted).
  { intros k Hk. apply (Permutation_in _ (Permutation_sym HP)).
    unfold all. apply in_map_iff. exists k. split; auto.
    apply in_seq. lia. }
  destruct (ranked_positions sorted (j, tfidf idx j toks)
              (i, tfidf idx i toks) Hsorted (Hall j Hj) (Hall i Hi))
    as [l1 [l2 [l3 E]]].
  { unfold ranks_before. simpl.
    destruct (Rle_lt_or_eq_dec _ _ Hs) as [Hlt|Heq].
    - left. lra.
    - right. split; [symmetry; exact Heq | exact Hji]. }
  assert (Hin' : In (i, tfidf idx i toks) (slice0 sorted topK)).
  { apply in_map_iff in Hin. destruct Hin as [[i' s'] [Ei He]].
    simpl in Ei. subst i'.
    assert (Hs' : In (i, s') sorted) by now apply slice0_In in He.
    apply (Permutation_in _ HP) in Hs'. unfold all in Hs'.
    apply in_map_iff in Hs'. destruct Hs' as [k [Ek _]].
    inversion Ek; subst. exact He. }
  unfold slice0 in *.
  set (k := Z.to_nat (if (topK <? 0)%Z
                      then Z.max (Z.of_nat (List.length sorted) + topK) 0
                      else Z.min topK (Z.of_nat (List.length sorted)))) in *.
  assert (Hnd' : NoDup sorted) by now apply NoDup_fst.
  rewrite E in Hin', Hnd' |- *.
  replace (l1 ++ (j, tfidf idx j toks) :: l2 ++ (i, tfidf idx i toks) :: l3)
    with ((l1 ++ (j, tfidf idx j toks) :: l2) ++ (i, tfidf idx i toks) :: l3)
    in Hin', Hnd' |- * by (rewrite <- app_assoc; reflexivity).
  rewrite firstn_reaches; auto.
  - exists l1, l2, (firstn (k - S (List.length (l1 ++ (j, tfidf idx j toks) :: l2))) l3).
    rewrite <- app_assoc. reflexivity.
  - apply NoDup_remove_2 in Hnd'. intros H. apply Hnd'.
    apply in_or_app. now left.
Qed.

Lemma earlier_dominating_chunk_ranks_first_witness :
  (0 < 1 /\ 1 < List.length cat_dog
   /\ termFrequency (buildIndex cat_dog) 1 "cat"
      <= termFrequency (buildIndex cat_dog) 0 "cat")
  /\ exists s1 s0,
       chunk_score (count_tokens (tokenize "cat") []) (buildIndex cat_dog) 1
       = Some s1
       /\ chunk_score (count_tokens (tokenize "cat") []) (buildIndex cat_dog) 0
          = Some s0
       /\ (s1 <= s0)%R
       /\ forall topK r,
            ranking "cat" (buildIndex cat_dog) topK = Some r ->
            In 1 (map fst r) ->
            exists l1 l2 l3, r = l1 ++ (0, s0) :: l2 ++ (1, s1) :: l3.
Proof.
  assert (Hle : termFrequency (buildIndex cat_dog) 1 "cat"
                <= termFrequency (buildIndex cat_dog) 0 "cat")
    by (apply Nat.leb_le; reflexivity).
  split; [split; [lia | split; [simpl; lia | exact Hle]]|].
  apply (earlier_dominating_chunk_ranks_first "cat" cat_dog 1 0).
  - lia.
  - simpl. lia.
  - intros t [<-|[]]. exact Hle.
Defined.

Lemma StronglySorted_app_inv {A : Type} (R : A -> A -> Prop) l1 : forall l2,
  StronglySorted R (l1 ++ l2) ->
  forall a b, In a l1 -> In b l2 -> R a b.
Proof.
  induction l1 as [|x l1 IH]; intros l2 Hs a b Ha Hb; [destruct Ha|].
  simpl in Hs. inversion Hs as [|? ? Hs' Hx]; subst.
  destruct Ha as [<-|Ha].
  - rewrite Forall_forall in Hx. apply Hx. apply in_or_app. now right.
  - now apply (IH l2).
Qed.

Lemma slice0_prefix {A : Type} (l : list A) (e : Z) :
  exists k, slice0 l e = firstn k l.
Proof. unfold slice0. eexists. reflexivity. Qed.

(** X10.  The results of [score] on an index built by [buildIndex] are the
    best chunks: every chunk left out of the results is ranked after every
    result, so its score is not higher than any returned score. *)
Theorem results_are_the_best query items topK r i s e :
  ranking query (buildIndex items) topK = Some r ->
  In e r -> ~ In i (map fst r) ->
  chunk_score (count_tokens (tokenize query) []) (buildIndex items) i = Some s ->
  i < List.length items ->
  ranks_before e (i, s) /\ (s <= snd e)%R.
Proof.
  intros Hr He Hni Hs Hi.
  rewrite chunk_score_built in Hs by assumption. injection Hs as <-.
  destruct (sorted_scores_built query items) as [HP [Hsorted [Hnd Hrank]]].
  rewrite Hrank in Hr. injection Hr as <-.
  set (sorted := Array_sort by_score_desc
                   (map (fun i => (i, tfidf (buildIndex items) i
                                        (tokenize query)))
                        (seq 0 (List.length items)))) in *.
  destruct (slice0_prefix sorted topK) as [k Ek]. rewrite Ek in *.
  assert (Hin : In (i, tfidf (buildIndex items) i (tokenize query)) sorted).
  { apply (Permutation_in _ (Permutation_sym HP)).
    apply in_map_iff. exists i. split; auto. apply in_seq. lia. }
  rewrite <- (firstn_skipn k sorted) in Hin, Hsorted.
  apply in_app_or in Hin. destruct Hin as [Hin|Hin].
  - exfalso. apply Hni. apply in_map_iff.
    now exists (i, tfidf (buildIndex items) i (tokenize query)).
  - pose proof (StronglySorted_app_inv _ _ _ Hsorted e _ He Hin) as Hb.
    split; [exact Hb|]. apply ranks_before_ge in Hb. simpl in Hb. lra.
Qed.

Lemma results_are_the_best_witness :
  exists s0 s1,
    ranking "dog" (buildIndex cat_dog) 1 = Some [(1, s1)]
    /\ chunk_score (count_tokens (tokenize "dog") []) (buildIndex cat_dog) 0
       = Some s0
    /\ ranks_before (1, s1) (0, s0).
Proof.
  exists (tfidf (buildIndex cat_dog) 0 (tokenize "dog")),
         (tfidf (buildIndex cat_dog) 1 (tokenize "dog")).
  assert (Hlt : (tfidf (buildIndex cat_dog) 0 (tokenize "dog")
                 < tfidf (buildIndex cat_dog) 1 (tokenize "dog"))%R).
  { apply tfidf_dominance.
    - intros t [<-|[]]. apply Nat.leb_le. reflexivity.
    - exists "dog". split; [now left|]. apply Nat.ltb_lt. reflexivity. }
  assert (Hr : ranking "dog" (buildIndex cat_dog) 1
               = Some [(1, tfidf (buildIndex cat_dog) 1 (tokenize "dog"))]).
  { rewrite ranking_well_formed by apply buildIndex_well_formed.
    change (List.length (items (buildIndex cat_dog))) with 2.
    cbn [seq map Array_sort fold_right insert_by].
    unfold by_score_desc at 1. cbn [snd].
    destruct (Rlt_dec _ 0) as [_|Hn]; [reflexivity | lra]. }
  assert (Hs : chunk_score (count_tokens (tokenize "dog") [])
                 (buildIndex cat_dog) 0
               = Some (tfidf (buildIndex cat_dog) 0 (tokenize "dog")))
    by (apply chunk_score_built; simpl; lia).
  split; [exact Hr|]. split; [exact Hs|].
  refine (proj1 (results_are_the_best "dog" cat_dog 1 _ 0 _ _ Hr _ _ Hs _)).
  - now left.
  - simpl. intros [H|[]]. discriminate.
  - simpl. lia.
Defined.

(** X11.  On an index built by [buildIndex], [score] returns chunks of the
    corpus, each at most once and each with its own score: the results are
    the chunks at pairwise distinct positions of the corpus. *)
Theorem results_are_distinct_chunks query items topK :
  exists r,
    ranking query (buildIndex items) topK = Some r
    /\ score query (buildIndex items) topK
       = Some (map (attach (buildIndex items)) r)
    /\ NoDup (map fst r)
    /\ forall i s,
         In (i, s) r ->
         chunk_score (count_tokens (tokenize query) []) (buildIndex items) i
         = Some s
         /\ exists c, nth_error items i = Some c
                      /\ attach (buildIndex items) (i, s)
                         = {| sc_chunk := Some c; sc_score := s |}.
Proof.
  destruct (sorted_scores_built query items) as [HP [Hsorted [Hnd Hrank]]].
  eexists. split; [apply Hrank|].
  split; [apply score_of_ranking, Hrank|]. split.
  - match goal with
    | |- NoDup (map fst (slice0 ?l ?e)) =>
        destruct (slice0_prefix l e) as [k ->];
        rewrite <- firstn_map;
        rewrite <- (firstn_skipn k (map fst l)) in Hnd;
        now apply NoDup_app_remove_r in Hnd
    end.
  - intros i s Hin. apply slice0_In in Hin.
    apply (Permutation_in _ HP) in Hin. apply in_map_iff in Hin.
    destruct Hin as [k [Ek Hk]]. inversion Ek; subst. apply in_seq in Hk.
    split; [apply chunk_score_built; lia|].
    destruct (nth_error items i) as [c|] eqn:Hc.
    + exists c. split; auto. unfold attach. simpl. now rewrite Hc.
    + apply nth_error_None in Hc. lia.
Qed.

(** X12.  The results for a [topK] that is not positive, on an index built
    by [buildIndex]: none for [topK = 0]; for a negative [topK] the whole
    ranking (what [topK = N] returns) without its last [-topK] entries, so
    the best [N + topK] chunks in ranking order, and none when [-topK]
    reaches [N]. *)
Theorem score_nonpositive_topK query items :
  score query (buildIndex items) 0 = Some []
  /\ exists full,
       score query (buildIndex items) (Z.of_nat (List.length items))
       = Some full
       /\ List.length full = List.length items
       /\ forall topK,
            (topK < 0)%Z ->
            score query (buildIndex items) topK
            = Some (firstn (List.length items - Z.to_nat (- topK)) full)
            /\ List.length
                 (firstn (List.length items - Z.to_nat (- topK)) full)
               = List.length items - Z.to_nat (- topK).
Proof.
  destruct (sorted_scores_built query items) as [HP [_ [_ Hrank]]].
  set (sorted := Array_sort by_score_desc
                   (map (fun i => (i, tfidf (buildIndex items) i
                                        (tokenize query)))
                        (seq 0 (List.length items)))) in *.
  assert (Hlen : List.length sorted = List.length items)
    by now rewrite (Permutation_length HP), length_map, length_seq.
  split.
  - unfold score. rewrite Hrank, slice0_firstn by lia. reflexivity.
  - exists (map (attach (buildIndex items)) sorted).
    split; [|split].
    + unfold score. rewrite Hrank, slice0_firstn by lia.
      rewrite firstn_all2 by lia. reflexivity.
    + now rewrite length_map.
    + intros topK Hk. split.
      * unfold score. rewrite Hrank. unfold slice0.
        destruct (Z.ltb_spec topK 0) as [_|H]; [|lia].
        rewrite Hlen. cbn [option_map]. rewrite firstn_map.
        do 3 f_equal. lia.
      * rewrite length_firstn, length_map, Hlen. lia.
Qed.

Lemma score_nonpositive_topK_witness :
  (-1 < 0)%Z
  /\ exists full,
       score "dog" (buildIndex cat_dog) 2 = Some full
       /\ List.length full = 2
       /\ score "dog" (buildIndex cat_dog) (-1) = Some (firstn 1 full).
Proof.
  split; [lia|].
  destruct (proj2 (score_nonpositive_topK "dog" cat_dog))
    as [full [Hf [Hl H]]].
  exists full. split; [exact Hf|]. split; [exact Hl|].
  apply (H (-1)%Z). lia.
Defined.

Lemma sequence_None {A : Type} (l : list (option A)) :
  In None l -> sequence l = None.
Proof.
  induction l as [|[a|] l IH]; simpl; intros H; auto.
  - destruct H.
  - destruct H as [H|H]; [discriminate|]. now rewrite IH.
Qed.

Lemma score_fold_throws idx i entries : forall s,
  nth_error (tf idx) i = None ->
  (exists e, In e entries /\ documentFrequency idx (fst e) <> 0) ->
  fold_left (score_step idx i) entries (Some s) = None.
Proof.
  induction entries as [|[t qtf] entries IH]; intros s Hn [e [He Hdf]].
  - destruct He.
  - simpl. fold (documentFrequency idx t).
    destruct (documentFrequency idx t =? 0) eqn:E.
    + apply IH; auto. destruct He as [<-|He].
      * simpl in Hdf. apply Nat.eqb_eq in E. contradiction.
      * now exists e.
    + rewrite Hn. apply score_fold_None.
Qed.

Lemma all_scores_enough_tables tokens idx :
  List.length (items idx) <= List.length (tf idx) ->
  all_scores (count_tokens tokens []) idx
  = Some (map (fun i => (i, tfidf idx i tokens))
              (seq 0 (List.length (items idx)))).
Proof.
  intros Hle. unfold all_scores. apply sequence_indexed.
  intros i Hi. apply in_seq in Hi.
  unfold chunk_score. rewrite score_fold_contributions by lia.
  rewrite (sum_over_counts (fun qtf t => contribution idx i qtf t)).
  unfold tfidf. f_equal. lra.
Qed.

(** X13.  [score] throws exactly when the index has fewer tables than
    chunks and some term of the query has a non-zero document frequency:
    the table of a chunk is read only for such a term. *)
Theorem score_throws_iff query idx topK :
  score query idx topK = None
  <-> List.length (tf idx) < List.length (items idx)
      /\ exists t, In t (tokenize query) /\ documentFrequency idx t <> 0.
Proof.
  unfold score, ranking. split.
  - intros H.
    destruct (all_scores (count_tokens (tokenize query) []) idx)
      as [scores|] eqn:E; [discriminate|]. clear H.
    split.
    + destruct (Nat.lt_ge_cases (List.length (tf idx))
                  (List.length (items idx))) as [Hlt|Hge]; auto.
      rewrite all_scores_enough_tables in E by assumption. discriminate.
    + destruct (Exists_dec (fun t => documentFrequency idx t <> 0)
                  (tokenize query)) as [Hex|Hnex].
      * intros t. destruct (Nat.eq_dec (documentFrequency idx t) 0); auto.
      * apply Exists_exists in Hex. exact Hex.
      * rewrite all_scores_unknown in E; [discriminate|].
        intros t Ht.
        destruct (Nat.eq_dec (documentFrequency idx t) 0) as [E0|E0]; auto.
        exfalso. apply Hnex. apply Exists_exists. now exists t.
  - intros [Hlt [t [Ht Hdf]]].
    assert (E : all_scores (count_tokens (tokenize query) []) idx = None).
    { unfold all_scores. apply sequence_None. apply in_map_iff.
      exists (List.length (tf idx)). split; [|apply in_seq; lia].
      unfold chunk_score. rewrite score_fold_throws; auto.
      - apply nth_error_None. lia.
      - assert (Hk : In t (map_keys (count_tokens (tokenize query) [])))
          by now apply counts_keys.
        unfold map_keys in Hk. apply in_map_iff in Hk.
        destruct Hk as [e [<- He]]. now exists e. }
    now rewrite E.
Qed.

Lemma score_throws_iff_witness :
  let idx := {| items := cat_dog; df := [("dog", 2)]; tf := []; N := 2 |} in
  (List.length (tf idx) < List.length (items idx)
   /\ exists t, In t (tokenize "dog") /\ documentFrequency idx t <> 0)
  /\ score "dog" idx 8 = None.
Proof.
  intros idx.
  assert (H : List.length (tf idx) < List.length (items idx)
              /\ exists t, In t (tokenize "dog")
                           /\ documentFrequency idx t <> 0).
  { split; [simpl; lia|]. exists "dog". split; [now left | discriminate]. }
  split; [exact H|].
  exact (proj2 (score_throws_iff "dog" idx 8) H).
Defined.

(* ------------------------------------------------------------------ *)
(** ** Corpus loader: what the result depends on *)

Lemma try_candidate_ext json_value fetch fetch' p :
  fetch' p = fetch p ->
  try_candidate json_value fetch' p = try_candidate json_value fetch p.
Proof. intros H. unfold try_candidate. now rewrite H. Qed.

Lemma fails_ext json_value fetch fetch' p :
  fetch' p = fetch p ->
  fails json_value fetch p -> fails json_value fetch' p.
Proof.
  intros H [e He]. exists e. now rewrite (try_candidate_ext _ _ _ _ H).
Qed.

(** X14.  The loader stops at the first candidate that succeeds: its result
    depends neither on the candidates after it nor on what the network
    would answer for them. *)
Theorem loader_stops_at_first_success
  json_value fetch fetch' before p after after' data :
  Forall (fails json_value fetch) before ->
  try_candidate json_value fetch p = inr data ->
  (forall q, In q (before ++ [p]) -> fetch' q = fetch q) ->
  fetchJsonWithFallback json_value fetch (before ++ p :: after) = inr data
  /\ fetchJsonWithFallback json_value fetch' (before ++ p :: after')
     = inr data.
Proof.
  intros Hb Hp Hagree. split.
  - apply fallback_loop_success. now exists before, p, after.
  - apply fallback_loop_success. exists before, p, after'.
    split; [reflexivity|]. split.
    + rewrite Forall_forall in *. intros q Hq.
      apply (fails_ext json_value fetch); auto.
      apply Hagree. apply in_or_app. now left.
    + rewrite (try_candidate_ext json_value fetch fetch' p); auto.
      apply Hagree. apply in_or_app. right. now left.
Qed.

Lemma loader_stops_at_first_success_witness :
  (Forall (fails toy_json_value toy_fetch) ["A"]
   /\ try_candidate toy_json_value toy_fetch "B" = inr one_record)
  /\ fetchJsonWithFallback toy_json_value toy_fetch ["A"; "B"; "C"]
     = inr one_record.
Proof.
  assert (HA : Forall (fails toy_json_value toy_fetch) ["A"])
    by (repeat constructor; eexists; reflexivity).
  assert (HB : try_candidate toy_json_value toy_fetch "B" = inr one_record)
    by reflexivity.
  split; [split; assumption|].
  exact (proj1 (loader_stops_at_first_success toy_json_value toy_fetch
                  toy_fetch ["A"] "B" ["C"] [] one_record HA HB
                  (fun q _ => eq_refl))).
Defined.

Lemma fallback_loop_nonempty json_value fetch paths : forall e1 e2,
  paths <> [] ->
  fallback_loop json_value fetch e1 paths
  = fallback_loop json_value fetch e2 paths.
Proof.
  destruct paths as [|p paths]; intros e1 e2 H; [congruence|]. reflexivity.
Qed.

Lemma fallback_loop_app json_value fetch l1 : forall lastErr l2,
  fallback_loop json_value fetch lastErr (l1 ++ l2)
  = match fallback_loop json_value fetch lastErr l1 with
    | inr d => inr d
    | inl e => fallback_loop json_value fetch (Some e) l2
    end.
Proof.
  induction l1 as [|p l1 IH]; intros lastErr l2; simpl.
  - destruct l2 as [|q l2]; [now destruct lastErr | reflexivity].
  - destruct (try_candidate json_value fetch p); auto.
Qed.

(** X15.  Falling back over two lists of candidates one after the other is
    falling back over the first list and, when it fails, over the second:
    the failure of the first list is the result only when the second list
    is empty. *)
Theorem loader_fallback_app json_value fetch l1 l2 :
  fetchJsonWithFallback json_value fetch (l1 ++ l2)
  = match fetchJsonWithFallback json_value fetch l1 with
    | inr d => inr d
    | inl e =>
        match l2 with
        | [] => inl e
        | _ :: _ => fetchJsonWithFallback json_value fetch l2
        end
    end.
Proof.
  unfold fetchJsonWithFallback. rewrite fallback_loop_app.
  destruct (fallback_loop json_value fetch None l1) as [e|d]; auto.
  destruct l2 as [|q l2]; reflexivity.
Qed.

(* ------------------------------------------------------------------ *)
(** ** Corpus assembly: identifiers, single paragraphs *)

Lemma decimal_digits n : string_forall is_digit (decimal n) = true.
Proof.
  unfold decimal. generalize (Nat.to_uint n) as d.
  induction d; simpl; auto.
Qed.

Lemma decimal_injective n m : decimal n = decimal m -> n = m.
Proof.
  unfold decimal. intros H.
  apply (f_equal NilEmpty.uint_of_string) in H.
  rewrite !NilEmpty.usu in H. injection H as H.
  apply (f_equal Nat.of_uint) in H.
  now rewrite !DecimalNat.Unsigned.of_to in H.
Qed.

(** An identifier determines the url and the index it was made of. *)
Lemma chunk_id_injective u1 : forall u2 n m,
  (u1 ++ "#p" ++ decimal n = u2 ++ "#p" ++ decimal m)%string ->
  u1 = u2 /\ n = m.
Proof.
  assert (Hd : forall k rest s, decimal k <> (s ++ String "#" rest)%string).
  { intros k rest s H. pose proof (decimal_digits k) as Hk.
    rewrite H, string_forall_append in Hk. simpl in Hk.
    apply andb_true_iff in Hk. destruct Hk as [_ Hk]. discriminate. }
  induction u1 as [|c u1 IH]; intros u2 n m H.
  - destruct u2 as [|c2 u2].
    + simpl in H. injection H as H. split; auto. now apply decimal_injective.
    + exfalso. simpl in H. injection H as Hc H.
      destruct u2 as [|c3 u2]; simpl in H; [discriminate|].
      injection H as Hc3 H. exact (Hd n (String "p" (decimal m)) u2 H).
  - destruct u2 as [|c2 u2].
    + exfalso. simpl in H. injection H as Hc H.
      destruct u1 as [|c3 u1]; simpl in H; [discriminate|].
      injection H as Hc3 H.
      exact (Hd m (String "p" (decimal n)) u1 (eq_sym H)).
    + simpl in H. injection H as Hc H. subst c2.
      destruct (IH u2 n m H) as [-> ->]. auto.
Qed.

Lemma map_fst_combine_seq {A : Type} (l : list A) : forall a,
  map fst (combine (seq a (List.length l)) l) = seq a (List.length l).
Proof.
  induction l as [|x l IH]; intros a; simpl; auto. now rewrite IH.
Qed.

Lemma record_chunks_ids date_of t :
  map id (record_chunks date_of t) = record_ids t.
Proof.
  unfold record_chunks, record_ids, record_url. rewrite map_map. simpl.
  rewrite <- (map_fst_combine_seq
                (paragraphs (or_str (transcription t) "")) 0) at 2.
  now rewrite map_map.
Qed.

Lemma record_ids_NoDup t : NoDup (record_ids t).
Proof.
  unfold record_ids. apply NoDup_map_NoDup_ForallPairs.
  - intros x y _ _ H. now apply chunk_id_injective in H.
  - apply seq_NoDup.
Qed.

Lemma assemble_ids data :
  map id (assemble data) = List.concat (map record_ids (all_records data)).
Proof.
  rewrite assemble_chunks. unfold all_records.
  rewrite map_app, !concat_map, !map_map, map_app, concat_app.
  f_equal; f_equal; apply map_ext; intros t; apply record_chunks_ids.
Qed.

Lemma record_ids_has_chunks t i : In i (record_ids t) -> has_chunks t = true.
Proof.
  unfold record_ids, has_chunks.
  destruct (paragraphs (or_str (transcription t) "")); simpl; auto.
Qed.

Lemma record_ids_url t t' i :
  In i (record_ids t) -> In i (record_ids t') -> record_url t = record_url t'.
Proof.
  unfold record_ids. intros H H'.
  apply in_map_iff in H, H'.
  destruct H as [k [<- _]], H' as [k' [E _]].
  now apply chunk_id_injective in E.
Qed.

Lemma concat_ids_NoDup rs :
  NoDup (map record_url (filter has_chunks rs)) ->
  NoDup (List.concat (map record_ids rs)).
Proof.
  induction rs as [|r rs IH]; simpl; intros H; [constructor|].
  destruct (has_chunks r) eqn:Hr.
  - simpl in H. inversion H as [|? ? Hnin Hnd]; subst.
    apply NoDup_app; auto using record_ids_NoDup.
    intros i Hi Hin. apply in_concat in Hin.
    destruct Hin as [l [Hl Hil]]. apply in_map_iff in Hl.
    destruct Hl as [r' [<- Hr']]. apply Hnin.
    rewrite (record_ids_url r r' i Hi Hil).
    apply in_map. apply filter_In. split; auto.
    now apply (record_ids_has_chunks r' i).
  - assert (E : record_ids r = []).
    { unfold record_ids, has_chunks in *.
      now destruct (paragraphs (or_str (transcription r) "")). }
    rewrite E. simpl. auto.
Qed.

(** X16.  The identifier of a chunk is the url of its record, then "#p",
    then the index of its paragraph in decimal, and it determines both the
    url and the index.  So the identifiers of the chunks of one record are
    pairwise distinct, and the identifiers of a whole corpus are pairwise
    distinct when the records that give chunks have pairwise distinct
    urls. *)
Theorem chunk_ids_unique :
  (forall u1 u2 n m,
      (u1 ++ "#p" ++ decimal n = u2 ++ "#p" ++ decimal m)%string ->
      u1 = u2 /\ n = m)
  /\ (forall date_of t, NoDup (map id (record_chunks date_of t)))
  /\ (forall data c,
         In c (assemble data) ->
         exists k, id c = (url c ++ "#p" ++ decimal k)%string)
  /\ (forall data,
         NoDup (map record_url (filter has_chunks (all_records data))) ->
         NoDup (map id (assemble data))).
Proof.
  split; [exact chunk_id_injective|]. split; [|split].
  - intros date_of t. rewrite record_chunks_ids. apply record_ids_NoDup.
  - intros data c Hc. rewrite assemble_chunks in Hc.
    assert (H : exists date_of t, In c (record_chunks date_of t)).
    { apply in_app_or in Hc. destruct Hc as [Hc|Hc];
        apply in_concat in Hc; destruct Hc as [l [Hl Hc]];
        apply in_map_iff in Hl; destruct Hl as [t [<- _]]; eauto. }
    destruct H as [date_of [t H]]. unfold record_chunks in H.
    apply in_map_iff in H. destruct H as [[k p] [<- _]].
    now exists k.
  - intros data H. rewrite assemble_ids. now apply concat_ids_NoDup.
Qed.

Lemma chunk_ids_unique_witness :
  let data :=
    {| transcriptions :=
         Some [ {| metadata := Some {| m_title := None; record_date := None;
                                       estimated_date := None;
                                       m_url := Some "u" |};
                   transcription := Some ("a" ++ blank_line ++ "b")%string |} ];
       videos :=
         Some [ {| metadata := Some {| m_title := None; record_date := None;
                                       estimated_date := None;
                                       m_url := Some "v" |};
                   transcription := Some "c" |} ] |} in
  NoDup (map record_url (filter has_chunks (all_records data)))
  /\ map id (assemble data) = ["u#p0"; "u#p1"; "v#p0"]
  /\ NoDup (map id (assemble data)).
Proof.
  intros data.
  assert (H : NoDup (map record_url (filter has_chunks (all_records data)))).
  { simpl. repeat constructor; simpl; intuition discriminate. }
  split; [exact H|]. split; [reflexivity|].
  exact (proj2 (proj2 (proj2 chunk_ids_unique)) data H).
Defined.

Lemma split_nl_no_blank_line s : forall cur,
  (no_blank_line false s = true ->
   split_nl_from Reading cur s = [(cur ++ s)%string])
  /\ (no_blank_line true s = true ->
      split_nl_from OneNewline cur s = [(cur ++ String LF s)%string]).
Proof.
  induction s as [|c s IH]; intros cur; simpl.
  - split; intros _; [now rewrite append_nil_r | reflexivity].
  - destruct (isLF c) eqn:Hc; simpl.
    + split; [|discriminate]. intros Hs.
      apply isLF_eq in Hc. subst c. now apply (proj2 (IH cur)).
    + split; intros Hs.
      * rewrite (proj1 (IH (snoc cur c)) Hs). now rewrite snoc_append.
      * rewrite (proj1 (IH (snoc (snoc cur LF) c)) Hs).
        now rewrite !snoc_append.
Qed.

(** X17.  A record whose text is not empty and has no two line feeds in a
    row gives exactly one chunk, of index 0, whose text is the first 2000
    characters of the whole text: single line feeds do not split. *)
Theorem single_paragraph_record date_of items t text0 :
  transcription t = Some text0 -> text0 <> EmptyString ->
  no_blank_line false text0 = true ->
  add_record date_of items t
  = items ++ [ {| id := (record_url t ++ "#p0")%string;
                  text := str_slice0 text0 2000;
                  title := or_str (meta_field m_title t) "Untitled";
                  date := date_of t;
                  url := record_url t |} ].
Proof.
  intros Ht Hne Hnb. rewrite add_record_chunks. f_equal.
  unfold record_chunks, paragraphs, split_nl.
  assert (E : or_str (transcription t) "" = text0).
  { rewrite Ht. simpl. destruct text0; [congruence | reflexivity]. }
  rewrite E, (proj1 (split_nl_no_blank_line text0 EmptyString) Hnb).
  simpl. destruct text0; [congruence|]. reflexivity.
Qed.

Lemma single_paragraph_record_witness :
  let t := {| metadata := None;
              transcription := Some ("line one" ++ String LF "line two")%string
           |} in
  (transcription t = Some ("line one" ++ String LF "line two")%string
   /\ no_blank_line false ("line one" ++ String LF "line two") = true)
  /\ map id (add_record video_date [] t) = ["#p0"].
Proof.
  intros t. split; [split; reflexivity|].
  rewrite (single_paragraph_record video_date [] t
             ("line one" ++ String LF "line two")%string eq_refl);
    [reflexivity | discriminate | reflexivity].
Defined.

(* ------------------------------------------------------------------ *)
(** ** The session: messages, loads, answers *)

Lemma addMsg_chat r b meta st :
  chat (addMsg r b meta st)
  = chat st ++ [ {| role := r; msg_body := b; msg_meta := meta |} ].
Proof. reflexivity. Qed.

Lemma handle_chat json_value st ev :
  exists added,
    chat (handle json_value st ev) = chat st ++ added
    /\ List.length added <= 2.
Proof.
  destruct ev as [fetch|value useLlm endpoint|k reply]; simpl.
  - unfold loadData.
    destruct (fetchJsonWithFallback json_value fetch candidates);
      simpl; eexists; (split; [reflexivity | simpl; lia]).
  - unfold submit. destruct (negb (truthy (trim value))).
    + exists []. rewrite app_nil_r. split; [reflexivity | simpl; lia].
    + simpl. destruct (index st) as [idx|].
      * destruct (score (trim value) idx 8) as [top|].
        -- destruct useLlm; [destruct (negb (truthy (trim endpoint)))|];
             simpl; rewrite <- ?app_assoc; eexists;
             (split; [reflexivity | simpl; lia]).
        -- simpl. eexists. split; [reflexivity | simpl; lia].
      * simpl. rewrite <- app_assoc. eexists.
        split; [reflexivity | simpl; lia].
  - unfold relay_settled. destruct (nth_error (in_flight st) k) as [ref|].
    + destruct (callRelay reply); simpl; eexists;
        (split; [reflexivity | simpl; lia]).
    + exists []. rewrite app_nil_r. split; [reflexivity | simpl; lia].
Qed.

Lemma fold_chat json_value evs : forall st,
  exists added,
    chat (fold_left (handle json_value) evs st) = chat st ++ added
    /\ List.length added <= 2 * List.length evs.
Proof.
  induction evs as [|ev evs IH]; intros st; simpl.
  - exists []. rewrite app_nil_r. split; [reflexivity | simpl; lia].
  - destruct (handle_chat json_value st ev) as [a1 [E1 L1]].
    destruct (IH (handle json_value st ev)) as [a2 [E2 L2]].
    exists (a1 ++ a2). rewrite E2, E1, <- app_assoc.
    split; [reflexivity|]. rewrite length_app. lia.
Qed.

(** X18.  The chat is append-only: an event leaves the messages already
    shown as they are and appends at most two, and after any sequence of
    events the earlier messages are still there, in their order. *)
Theorem chat_append_only json_value :
  (forall st ev,
      exists added,
        chat (handle json_value st ev) = chat st ++ added
        /\ List.length added <= 2)
  /\ (forall evs st,
         exists added,
           chat (fold_left (handle json_value) evs st) = chat st ++ added
           /\ List.length added <= 2 * List.length evs).
Proof.
  split; [apply handle_chat|]. intros evs st. apply fold_chat.
Qed.

Lemma failing_event_keeps_index json_value st ev :
  load_fails json_value ev ->
  index (handle json_value st ev) = index st
  /\ docs (handle json_value st ev) = docs st.
Proof.
  destruct ev as [fetch|value useLlm endpoint|k reply]; simpl.
  - intros [e He]. unfold loadData. rewrite He. split; reflexivity.
  - intros _. destruct (submit_keeps value useLlm endpoint st). auto.
  - intros _. destruct (relay_settled_keeps k reply st) as [Hd [Hi _]]. auto.
Qed.

Lemma failing_events_keep_index json_value evs : forall st,
  Forall (load_fails json_value) evs ->
  index (fold_left (handle json_value) evs st) = index st
  /\ docs (fold_left (handle json_value) evs st) = docs st.
Proof.
  induction evs as [|ev evs IH]; intros st H; simpl; auto.
  inversion H as [|? ? Hev Hevs]; subst.
  destruct (failing_event_keeps_index json_value st ev Hev) as [Hi Hd].
  destruct (IH (handle json_value st ev) Hevs) as [Hi' Hd'].
  split; congruence.
Qed.

(** X19.  A load that fails changes neither the corpus nor the index, and
    shows the failure once; so while every load of a session has failed,
    the index is not built, however many queries are submitted. *)
Theorem failed_load_leaves_index_unbuilt json_value :
  (forall fetch st e,
      fetchJsonWithFallback json_value fetch candidates = inl e ->
      loadData json_value fetch st = addMsg bot (LoadFailed e) None st)
  /\ (forall evs,
         Forall (load_fails json_value) evs ->
         index (run json_value evs) = None
         /\ docs (run json_value evs) = []
         /\ score_calls (run json_value evs) = []).
Proof.
  split.
  - intros fetch st e He. unfold loadData. now rewrite He.
  - intros evs H. unfold run.
    destruct (failing_events_keep_index json_value evs initial H) as [Hi Hd].
    split; [exact Hi|]. split; [exact Hd|].
    assert (Hs : forall evs st,
               index st = None -> Forall (load_fails json_value) evs ->
               score_calls (fold_left (handle json_value) evs st)
               = score_calls st).
    { clear. induction evs as [|ev evs IH]; intros st Hi H; simpl; auto.
      inversion H as [|? ? Hev Hevs]; subst.
      destruct (failing_event_keeps_index json_value st ev Hev) as [Hi' _].
      rewrite IH by congruence.
      destruct ev as [fetch|value useLlm endpoint|k reply]; simpl.
      - apply loadData_calls.
      - destruct (submit_calls value useLlm endpoint st)
          as [E|[idx [Hidx _]]]; congruence.
      - now destruct (relay_settled_keeps k reply st) as [_ [_ E]]. }
    now apply (Hs evs initial).
Qed.

Lemma failed_load_leaves_index_unbuilt_witness :
  Forall (load_fails toy_json_value)
         [LoadSettled toy_fetch; Submitted "dog" false ""]
  /\ index (run toy_json_value
              [LoadSettled toy_fetch; Submitted "dog" false ""]) = None.
Proof.
  assert (H : Forall (load_fails toy_json_value)
                [LoadSettled toy_fetch; Submitted "dog" false ""]).
  { repeat constructor. simpl. eexists. reflexivity. }
  split; [exact H|].
  exact (proj1 (proj2 (failed_load_leaves_index_unbuilt toy_json_value) _ H)).
Defined.

(** X20.  The corpus and the index are those of the last load that
    succeeded: after it, whatever was there before is replaced by the
    chunks assembled from the file and the index built of them, and later
    submits, relay answers and failing loads leave both as they are. *)
Theorem index_of_last_successful_load json_value evs1 fetch data evs2 :
  fetchJsonWithFallback json_value fetch candidates = inr data ->
  Forall (load_fails json_value) evs2 ->
  let st := run json_value (evs1 ++ LoadSettled fetch :: evs2) in
  docs st = assemble data
  /\ index st = Some (buildIndex (assemble data))
  /\ exists before after,
       chat st
       = before
         ++ {| role := bot;
               msg_body := DataLoaded (List.length (assemble data));
               msg_meta := None |}
         :: after.
Proof.
  intros Hload Hlater st. unfold st, run.
  rewrite fold_left_app. simpl.
  set (st0 := fold_left (handle json_value) evs1 initial).
  set (st1 := loadData json_value fetch st0).
  destruct (failing_events_keep_index json_value evs2 st1 Hlater) as [Hi Hd].
  assert (H1 : docs st1 = assemble data
               /\ index st1 = Some (buildIndex (assemble data))
               /\ chat st1
                  = chat st0
                    ++ [ {| role := bot;
                            msg_body := DataLoaded (List.length (assemble data));
                            msg_meta := None |} ]).
  { unfold st1, loadData. rewrite Hload. repeat split. }
  destruct H1 as [Hd1 [Hi1 Hc1]].
  split; [congruence|]. split; [congruence|].
  destruct (fold_chat json_value evs2 st1) as [added [E _]].
  exists (chat st0), added. rewrite E, Hc1, <- app_assoc. reflexivity.
Qed.

Lemma index_of_last_successful_load_witness :
  fetchJsonWithFallback toy_json_value json_everywhere candidates
  = inr one_record
  /\ index (run toy_json_value
              [Submitted "early" false ""; LoadSettled json_everywhere;
               LoadSettled toy_fetch])
     = Some (buildIndex (assemble one_record)).
Proof.
  split; [reflexivity|].
  refine (proj1 (proj2 (index_of_last_successful_load toy_json_value
                          [Submitted "early" false ""] json_everywhere
                          one_record [LoadSettled toy_fetch] eq_refl _))).
  repeat constructor. simpl. eexists. reflexivity.
Defined.



(** A query submitted once the index is built, without the relay: one call
    of [score], the echo of the query and one answer made of the passages
    returned. *)
Lemma submit_template value endpoint st items :
  index st = Some (buildIndex items) ->
  truthy (trim value) = true ->
  exists top,
    score (trim value) (buildIndex items) 8 = Some top
    /\ List.length top = Nat.min 8 (List.length items)
    /\ submit value false endpoint st
       = {| docs := docs st; index := index st;
            chat := chat st
                    ++ [ {| role := user; msg_body := Said (trim value);
                            msg_meta := None |};
                         {| role := bot; msg_body := Template top;
                            msg_meta := Some (refText top) |} ];
            in_flight := in_flight st;
            score_calls := score_calls st
                           ++ [(trim value, buildIndex items, 8%Z)] |}.
Proof.
  intros Hi Hq.
  destruct (score_length (trim value) items 8%Z) as [top [Hs Hl]]; [lia|].
  exists top. split; [exact Hs|]. split; [exact Hl|].
  unfold submit. rewrite Hq. simpl. rewrite Hi, Hs.
  unfold addMsg. simpl. rewrite <- app_assoc. reflexivity.
Qed.




(** X22.  From the file to the answer: once a load has succeeded with a
    parsed file, and whatever happened before and since (no later load
    succeeding), a query that is not blank, submitted without the relay,
    is scored against the index built of the chunks assembled from that
    file; the answer shown is made of the [min 8 N] best passages, with the
    reference label built from them. *)
Theorem query_after_load json_value evs1 fetch data evs2 value endpoint :
  fetchJsonWithFallback json_value fetch candidates = inr data ->
  Forall (load_fails json_value) evs2 ->
  truthy (trim value) = true ->
  let st := run json_value (evs1 ++ LoadSettled fetch :: evs2) in
  exists top,
    score (trim value) (buildIndex (assemble data)) 8 = Some top
    /\ List.length top = Nat.min 8 (List.length (assemble data))
    /\ chat (handle json_value st (Submitted value false endpoint))
       = chat st
         ++ [ {| role := user; msg_body := Said (trim value);
                 msg_meta := None |};
              {| role := bot; msg_body := Template top;
                 msg_meta := Some (refText top) |} ]
    /\ score_calls (handle json_value st (Submitted value false endpoint))
       = score_calls st
         ++ [(trim value, buildIndex (assemble data), 8%Z)].
Proof.
  intros Hload Hlater Hq st.
  assert (Hi : index st = Some (buildIndex (assemble data))).
  { unfold st, run. rewrite fold_left_app. simpl.
    destruct (failing_events_keep_index json_value evs2
                (loadData json_value fetch
                   (fold_left (handle json_value) evs1 initial)) Hlater)
      as [Hi _].
    rewrite Hi. unfold loadData. now rewrite Hload. }
  destruct (submit_template value endpoint st (assemble data) Hi Hq)
    as [top [Hs [Hl E]]].
  exists top. split; [exact Hs|]. split; [exact Hl|].
  simpl. rewrite E. split; reflexivity.
Qed.

Lemma query_after_load_witness :
  (fetchJsonWithFallback toy_json_value json_everywhere candidates
   = inr one_record
   /\ truthy (trim " dog ") = true)
  /\ exists top,
       score "dog" (buildIndex (assemble one_record)) 8 = Some top
       /\ List.length top = 1.
Proof.
  split; [split; reflexivity|].
  destruct (query_after_load toy_json_value [Submitted "early" false ""]
              json_everywhere one_record [] " dog " "" eq_refl
              (Forall_nil _) eq_refl) as [top [Hs [Hl _]]].
  exists top. split; [exact Hs | exact Hl].
Defined.

(* ------------------------------------------------------------------ *)
(** ** The results and their number *)

Lemma Forall2_map_of {A B : Type} (P : A -> B -> Prop) (f : A -> B) l :
  (forall a, In a l -> P a (f a)) -> Forall2 P l (map f l).
Proof.
  induction l as [|x l IH]; intros H; simpl; constructor.
  - apply H. now left.
  - apply IH. intros a Ha. apply H. now right.
Qed.

(** What [score] returns on an index built by [buildIndex]: entries of the
    array of scores at distinct places, each a place of the corpus with
    the score of the chunk at that place, and for each entry the chunk
    itself with that score. *)
Lemma score_results_built query items topK :
  exists r,
    ranking query (buildIndex items) topK = Some r
    /\ score query (buildIndex items) topK
       = Some (map (attach (buildIndex items)) r)
    /\ NoDup (map fst r)
    /\ Forall2 (fun e sc =>
                  exists c,
                    nth_error items (fst e) = Some c
                    /\ chunk_score (count_tokens (tokenize query) [])
                                   (buildIndex items) (fst e)
                       = Some (snd e)
                    /\ sc = {| sc_chunk := Some c; sc_score := snd e |})
               r (map (attach (buildIndex items)) r).
Proof.
  destruct (sorted_scores_built query items) as [HP [Hsorted [Hnd Hrank]]].
  eexists. split; [apply Hrank|].
  split; [apply score_of_ranking, Hrank|]. split.
  - match goal with
    | |- NoDup (map fst (slice0 ?l ?e)) =>
        destruct (slice0_prefix l e) as [k ->];
        rewrite <- firstn_map;
        rewrite <- (firstn_skipn k (map fst l)) in Hnd;
        now apply NoDup_app_remove_r in Hnd
    end.
  - apply Forall2_map_of. intros [i s] Hin. apply slice0_In in Hin.
    apply (Permutation_in _ HP) in Hin. apply in_map_iff in Hin.
    destruct Hin as [k [Ek Hk]]. inversion Ek; subst. apply in_seq in Hk.
    simpl. destruct (nth_error items i) as [c|] eqn:Hc.
    + exists c. split; [reflexivity|].
      split; [apply chunk_score_built; lia|].
      unfold attach. simpl. now rewrite Hc.
    + apply nth_error_None in Hc. lia.
Qed.

(** With a [topK] that reaches the size of the corpus, every chunk is
    returned, once. *)
Lemma score_whole_corpus query items topK :
  (Z.of_nat (List.length items) <= topK)%Z ->
  exists res,
    score query (buildIndex items) topK = Some res
    /\ List.length res = List.length items
    /\ Permutation (map sc_chunk res) (map Some items).
Proof.
  intros Hk.
  destruct (sorted_scores_built query items) as [HP [_ [_ Hrank]]].
  eexists. split; [apply score_of_ranking, Hrank|].
  assert (Hlen : List.length
                   (Array_sort by_score_desc
                      (map (fun i => (i, tfidf (buildIndex items) i
                                           (tokenize query)))
                           (seq 0 (List.length items))))
                 = List.length items).
  { now rewrite (Permutation_length HP), length_map, length_seq. }
  rewrite slice0_firstn by lia. rewrite firstn_all2 by lia.
  split; [now rewrite length_map|].
  rewrite map_map.
  rewrite (map_ext _ (fun e : nat * R => nth_error items (fst e)))
    by reflexivity.
  rewrite (Permutation_map (fun e : nat * R => nth_error items (fst e)) HP).
  rewrite map_map. cbn [fst].
  now rewrite nth_error_seq_map.
Qed.

(** C5.  For every query, every corpus of [N] chunks indexed by
    [buildIndex] and every [topK >= 1], [score] returns, without failing,
    exactly [min topK N] scored chunks: they stand at pairwise distinct
    places of the corpus, and each result is the chunk at its place paired
    with the score computed for that chunk.  A [topK] that reaches the
    size of the corpus gives every chunk of the corpus, once; in
    particular [topK = 8] against a corpus of three chunks gives these
    three chunks.  When no term of the query is in the corpus the results
    are the first [min topK N] chunks of the corpus, in the order of the
    corpus, each with score 0. *)
Theorem score_returns_min_topK_N :
  (forall query items topK,
      (1 <= topK)%Z ->
      exists r res,
        ranking query (buildIndex items) topK = Some r
        /\ score query (buildIndex items) topK = Some res
        /\ List.length res = Nat.min (Z.to_nat topK) (List.length items)
        /\ NoDup (map fst r)
        /\ Forall2 (fun e sc =>
                      exists c,
                        nth_error items (fst e) = Some c
                        /\ chunk_score (count_tokens (tokenize query) [])
                                       (buildIndex items) (fst e)
                           = Some (snd e)
                        /\ sc = {| sc_chunk := Some c; sc_score := snd e |})
                   r res)
  /\ (forall query items topK,
         (1 <= topK)%Z ->
         (Z.of_nat (List.length items) <= topK)%Z ->
         exists res,
           score query (buildIndex items) topK = Some res
           /\ List.length res = List.length items
           /\ Permutation (map sc_chunk res) (map Some items))
  /\ (forall query c0 c1 c2,
         exists res,
           score query (buildIndex [c0; c1; c2]) 8 = Some res
           /\ List.length res = 3
           /\ Permutation (map sc_chunk res) [Some c0; Some c1; Some c2])
  /\ (forall query items topK,
         (1 <= topK)%Z ->
         (forall t, In t (tokenize query) ->
                    documentFrequency (buildIndex items) t = 0) ->
         exists res,
           score query (buildIndex items) topK = Some res
           /\ List.length res = Nat.min (Z.to_nat topK) (List.length items)
           /\ Forall (fun sc => sc_score sc = 0%R) res
           /\ res = map (fun c => {| sc_chunk := Some c; sc_score := 0%R |})
                        (firstn (Z.to_nat topK) items)).
Proof.
  split; [|split; [|split]].
  - intros query items topK Hk.
    destruct (score_results_built query items topK)
      as [r [Hr [Hs [Hnd Hall]]]].
    exists r, (map (attach (buildIndex items)) r).
    split; [exact Hr|]. split; [exact Hs|].
    split; [|split; assumption].
    destruct (score_length query items topK) as [res [Hs' Hl]]; [lia|].
    rewrite Hs in Hs'. injection Hs' as <-. exact Hl.
  - intros query items topK _ Hk. now apply score_whole_corpus.
  - intros query c0 c1 c2.
    apply (score_whole_corpus query [c0; c1; c2] 8%Z). simpl. lia.
  - intros query items topK Hk Hq.
    destruct (score_unknown_terms query (buildIndex items) topK Hq)
      as [_ Hs]; [lia|].
    eexists. split; [exact Hs|]. split; [|split].
    + rewrite length_map, length_firstn. reflexivity.
    + rewrite Forall_map, Forall_forall. reflexivity.
    + reflexivity.
Qed.

Lemma score_returns_min_topK_N_witness :
  (1 <= 8)%Z
  /\ exists r res,
       ranking "dog"
         (buildIndex (map chunk_of_text ["cat dog"; "dog dog"; "a cat"])) 8
       = Some r
       /\ score "dog"
            (buildIndex (map chunk_of_text ["cat dog"; "dog dog"; "a cat"])) 8
          = Some res
       /\ List.length res = 3
       /\ Forall2 (fun e sc =>
                     exists c,
                       nth_error
                         (map chunk_of_text ["cat dog"; "dog dog"; "a cat"])
                         (fst e) = Some c
                       /\ sc = {| sc_chunk := Some c; sc_score := snd e |})
                  r res.
Proof.
  split; [lia|].
  destruct (proj1 score_returns_min_topK_N "dog"
              (map chunk_of_text ["cat dog"; "dog dog"; "a cat"]) 8%Z)
    as [r [res [Hr [Hs [Hl [_ Hall]]]]]]; [lia|].
  exists r, res. split; [exact Hr|]. split; [exact Hs|].
  split; [exact Hl|].
  eapply Forall2_impl; [|exact Hall].
  intros e sc [c [Hc [_ E]]]. exists c. split; [exact Hc | exact E].
Defined.
